(** * AssppWeb: a shallow embedding of the server core

    The development follows the TypeScript sources:
    - [services/zipAppend.ts]   : the ZIP tail builder ([Module Zip]);
    - [do/WispProxy.ts]         : the tunnel session ([Module Wisp]);
    - [middleware/auth.ts]      : the proof-of-work gate ([Module Pow]);
    - [do/DownloadManager.ts]   : the task store, the download engine, the
                                  injection step and the janitor
                                  ([Module Upload], [Module Store], [Module Inject]).

    Conventions.  A [Uint8Array] is a [list byte]; JavaScript numbers
    that hold sizes and offsets are [Z]; 32-bit operators are written with
    their wrap-around.  Code that throws returns [Err]; storage and the blob
    store are finite maps threaded through the operations. *)

From Stdlib Require Import ZArith Lia String Ascii.
From Stdlib.Strings Require Import Byte.
From stdpp Require Import base numbers option list gmap strings sorting.

Local Open Scope Z_scope.

#[local] Set Warnings "-clear-no-such-hyp,-register-all".

(* ===================================================================== *)
(** * Results of code that may throw *)
(* ===================================================================== *)

Inductive result (E A : Type) : Type :=
| Ok (a : A)
| Err (e : E).
Arguments Ok {E A} a.
Arguments Err {E A} e.

Definition result_bind {E A B} (f : A -> result E B) (m : result E A) : result E B :=
  match m with
  | Ok a => f a
  | Err e => Err e
  end.

#[global] Instance result_mbind {E} : MBind (result E) := @result_bind E.
#[global] Instance result_mret {E} : MRet (result E) := fun _ a => Ok a.

Definition is_ok {E A} (r : result E A) : bool :=
  match r with Ok _ => true | Err _ => false end.

(** Length of an array as a JavaScript number. *)
Definition len {A} (l : list A) : Z := Z.of_nat (length l).

(* ===================================================================== *)
(** * Octets *)
(* ===================================================================== *)

Abbreviation bytes := (list byte).

(** The numeric value of an element of a [Uint8Array]. *)
Definition Z_of_byte (b : byte) : Z := Z.of_N (Byte.to_N b).

(** A store into a [Uint8Array] keeps the low eight bits. *)
Definition byte_of_Z (v : Z) : byte :=
  default x00 (Byte.of_N (Z.to_N (v mod 256))).

(** [new Uint8Array(n)] *)
Definition zeros (n : nat) : bytes := replicate n x00.

(** [buf.set(src, off)] for a source that fits (the call throws a
    [RangeError] otherwise; every caller below checks the fit first). *)
Definition set_at (buf src : bytes) (off : nat) : bytes :=
  take off buf ++ src ++ drop (off + length src) buf.

(* ===================================================================== *)
(** * Array.prototype.sort with a comparator [(a, b) => key(a) - key(b)] *)
(* ===================================================================== *)

(** The sort is stable: an element goes after the elements that do not
    come later than it. *)
Fixpoint insert_by {A} (key : A -> Z) (x : A) (sorted : list A) : list A :=
  match sorted with
  | [] => [x]
  | y :: rest =>
      if key x <? key y then x :: y :: rest
      else y :: insert_by key x rest
  end.

Definition sort_by {A} (key : A -> Z) (l : list A) : list A :=
  fold_left (fun acc x => insert_by key x acc) l [].

(** Ascending order of the keys. *)
Definition ascending {A} (key : A -> Z) (l : list A) : Prop :=
  Sorted (fun a b => key a <= key b) l.

(* ===================================================================== *)
(** * services/zipAppend.ts *)
(* ===================================================================== *)

Module Zip.

Inductive zip_error : Type :=
| RangeError        (* a bounds-checked reader or the CD walker threw *)
| NotAZip           (* 'EOCD signature not found — not a valid ZIP file' *)
| Unsupported       (* 'ZIP64 archives are not supported by zipAppend' *)
| BadLocalHeader    (* 'Expected local file header signature' *)
| ReadFailed        (* the range reader rejected *)
| UnsupportedMethod (* 'Unsupported compression method' *)
| InflateFailed     (* the decompression stream rejected *)
| OutOfFuel.        (* the bound of a modelled loop was too small; shown unreachable *)

Abbreviation res := (result zip_error).

Definition SIG_LOCAL : Z := 0x04034b50.
Definition SIG_CD : Z := 0x02014b50.
Definition SIG_EOCD : Z := 0x06054b50.
Definition METHOD_STORED : Z := 0.

(** ** 32-bit operators *)

Definition toUint32 (v : Z) : Z := v mod 2 ^ 32.

(** [v >>> k] *)
Definition ushr (v k : Z) : Z := Z.shiftr (toUint32 v) k.

(** [v & m] for a non-negative mask [m] below 2^31. *)
Definition band (v m : Z) : Z := Z.land (toUint32 v) m.

(** [buf[i]] inside a bitwise expression: a missing element is [undefined],
    which the operators read as 0. *)
Definition at_ (buf : bytes) (i : Z) : Z :=
  if i <? 0 then 0
  else match buf !! Z.to_nat i with
       | Some b => Z_of_byte b
       | None => 0
       end.

(** ** Low-level readers (little-endian, bounds-checked) *)

Definition u16 (buf : bytes) (off : Z) : res Z :=
  if off + 2 >? len buf then Err RangeError
  else Ok (Z.lor (at_ buf off) (Z.shiftl (at_ buf (off + 1)) 8)).

Definition u32 (buf : bytes) (off : Z) : res Z :=
  if off + 4 >? len buf then Err RangeError
  else Ok (toUint32
             (Z.lor (Z.lor (Z.lor (at_ buf off) (Z.shiftl (at_ buf (off + 1)) 8))
                           (Z.shiftl (at_ buf (off + 2)) 16))
                    (Z.shiftl (at_ buf (off + 3)) 24))).

(** Stores into a typed array; a store outside the array is ignored, and the
    stored value is reduced to an octet. *)
Definition put (buf : bytes) (off : nat) (v : Z) : bytes := <[off := byte_of_Z v]> buf.

Definition w16 (buf : bytes) (off : nat) (v : Z) : bytes :=
  put (put buf off (band v 0xff)) (off + 1) (band (ushr v 8) 0xff).

Definition w32 (buf : bytes) (off : nat) (v : Z) : bytes :=
  put (put (put (put buf off (band v 0xff))
                (off + 1) (band (ushr v 8) 0xff))
           (off + 2) (band (ushr v 16) 0xff))
      (off + 3) (band (ushr v 24) 0xff).

(** The octets [w16] and [w32] store: the low one, and the one [k] bits up. *)
Definition lo (v : Z) : byte := byte_of_Z (band v 0xff).
Definition hi (v k : Z) : byte := byte_of_Z (band (ushr v k) 0xff).

(** [concat(...arrays)] *)
Definition concat (arrays : list bytes) : bytes := mjoin arrays.

(** [buf.subarray(s, e)]: negative indices count from the end, and both are
    clamped to the array. *)
Definition clamp_index (n i : Z) : Z :=
  if i <? 0 then Z.max (n + i) 0 else Z.min i n.

Definition subarray (buf : bytes) (s e : Z) : bytes :=
  let s' := clamp_index (len buf) s in
  let e' := clamp_index (len buf) e in
  take (Z.to_nat (e' - s')) (drop (Z.to_nat s') buf).

(** ** CRC-32 *)

Fixpoint crc_round (j : nat) (c : Z) : Z :=
  match j with
  | O => c
  | S j' =>
      crc_round j' (if Z.eqb (band c 1) 0 then ushr c 1
                    else toUint32 (Z.lxor 0xedb88320 (ushr c 1)))
  end.

Definition CRC_TABLE (i : Z) : Z := crc_round 8 i.

Definition crc32 (data : bytes) : Z :=
  toUint32
    (Z.lxor
       (fold_left
          (fun crc b =>
             toUint32 (Z.lxor (CRC_TABLE (band (Z.lxor crc (Z_of_byte b)) 0xff)) (ushr crc 8)))
          data 0xffffffff)
       0xffffffff).

(** ** EOCD parsing *)

Record Eocd : Type := mkEocd {
  offset : Z;       (* offset of the EOCD record *)
  entryCount : Z;   (* number of central directory entries *)
  cdSize : Z;       (* size of the central directory *)
  cdOffset : Z      (* offset of the central directory *)
}.

(** One probe of the backward scan at position [i]: [None] when the scan goes
    on to [i - 1] (no signature, or a record whose disk count differs from
    its total count), [Some r] when the scan ends with [r]. *)
Definition probe (tail : bytes) (archiveSize i : Z) : res (option Eocd) :=
  sig ← u32 tail i;
  if Z.eqb sig SIG_EOCD then
    diskEntries ← u16 tail (i + 8);
    totalEntries ← u16 tail (i + 10);
    if negb (Z.eqb diskEntries totalEntries) then Ok None
    else
      cdSize ← u32 tail (i + 12);
      cdOffsetRaw ← u32 tail (i + 16);
      if Z.eqb cdOffsetRaw 0xffffffff || Z.eqb totalEntries 0xffff then Err Unsupported
      else Ok (Some {| offset := i + (archiveSize - len tail);
                       entryCount := totalEntries;
                       cdSize := cdSize;
                       cdOffset := cdOffsetRaw |})
  else Ok None.

(** The [for] loop: [n] positions are left, the next one is [i]. *)
Fixpoint scan (tail : bytes) (archiveSize : Z) (n : nat) (i : Z) : res Eocd :=
  match n with
  | O => Err NotAZip
  | S n' =>
      if i <? 0 then Err NotAZip
      else
        r ← probe tail archiveSize i;
        match r with
        | Some e => Ok e
        | None => scan tail archiveSize n' (i - 1)
        end
  end.

Definition findEocd (tail : bytes) (archiveSize : Z) : res Eocd :=
  let maxSearch := Z.min (len tail) (65535 + 22) in
  let first := len tail - 22 in
  let last := len tail - maxSearch in
  scan tail archiveSize (Z.to_nat (first - last + 1)) first.

(** ** Central directory entries *)

(** [name] is the decoded file name; the decoder and the encoder of the
    platform ([TextDecoder], [TextEncoder]) are parameters of the section. *)
Record CdEntry : Type := mkCdEntry {
  name : string;
  method : Z;
  crc : Z;
  compressedSize : Z;
  uncompressedSize : Z;
  localOffset : Z;
  cdEntryOffset : Z;
  cdEntryLength : Z;
  extra : bytes;
  comment : bytes;
  raw : bytes
}.

Record AppendFile : Type := mkAppendFile {
  fname : string;
  fdata : bytes
}.

Section WithCodec.

Variable decode : bytes -> string.   (* new TextDecoder().decode *)
Variable encode : string -> bytes.   (* new TextEncoder().encode *)

(** One turn of the [while] loop at [pos]: [None] on [break]. *)
Definition parse_entry (cd : bytes) (pos : Z) : res (option CdEntry) :=
  if pos + 4 >? len cd then Ok None
  else
    sig ← u32 cd pos;
    if negb (Z.eqb sig SIG_CD) then Ok None
    else if pos + 46 >? len cd then Err RangeError
    else
      method ← u16 cd (pos + 10);
      crc ← u32 cd (pos + 16);
      compSize ← u32 cd (pos + 20);
      uncompSize ← u32 cd (pos + 24);
      nameLen ← u16 cd (pos + 28);
      extraLen ← u16 cd (pos + 30);
      commentLen ← u16 cd (pos + 32);
      localOffset ← u32 cd (pos + 42);
      let entryEnd := pos + 46 + nameLen + extraLen + commentLen in
      if entryEnd >? len cd then Err RangeError
      else
        Ok (Some {| name := decode (subarray cd (pos + 46) (pos + 46 + nameLen));
                    method := method;
                    crc := crc;
                    compressedSize := compSize;
                    uncompressedSize := uncompSize;
                    localOffset := localOffset;
                    cdEntryOffset := pos;
                    cdEntryLength := entryEnd - pos;
                    extra := subarray cd (pos + 46 + nameLen) (pos + 46 + nameLen + extraLen);
                    comment := subarray cd (pos + 46 + nameLen + extraLen) entryEnd;
                    raw := subarray cd pos entryEnd |}).

(** The loop advances by at least 46 octets a turn ([pos = entryEnd]), so
    [length cd] turns are enough; [parse_loop] is given one more and never
    uses it up ([parse_loop_fuel] below). *)
Fixpoint parse_loop (fuel : nat) (cd : bytes) (pos : Z) (entries : list CdEntry)
  : res (list CdEntry) :=
  match fuel with
  | O => Err OutOfFuel
  | S fuel' =>
      if pos <? len cd then
        r ← parse_entry cd pos;
        match r with
        | None => Ok entries
        | Some e => parse_loop fuel' cd (pos + cdEntryLength e) (entries ++ [e])
        end
      else Ok entries
  end.

Definition parseCentralDirectory (cd : bytes) : res (list CdEntry) :=
  parse_loop (S (length cd)) cd 0 [].

(** ** Building new entries *)

Definition buildLocalEntry (name : string) (data : bytes) : bytes :=
  let nameBytes := encode name in
  let crc := crc32 data in
  let size := len data in
  let header := zeros (30 + length nameBytes) in
  let header := w32 header 0 SIG_LOCAL in
  let header := w16 header 4 20 in
  let header := w16 header 6 0 in
  let header := w16 header 8 METHOD_STORED in
  let header := w16 header 10 0 in
  let header := w16 header 12 0 in
  let header := w32 header 14 crc in
  let header := w32 header 18 size in
  let header := w32 header 22 size in
  let header := w16 header 26 (len nameBytes) in
  let header := w16 header 28 0 in
  let header := set_at header nameBytes 30 in
  concat [header; data].

Definition buildCdEntry (name : string) (data : bytes) (localOffset : Z) : bytes :=
  let nameBytes := encode name in
  let crc := crc32 data in
  let size := len data in
  let entry := zeros (46 + length nameBytes) in
  let entry := w32 entry 0 SIG_CD in
  let entry := w16 entry 4 20 in
  let entry := w16 entry 6 20 in
  let entry := w16 entry 8 0 in
  let entry := w16 entry 10 METHOD_STORED in
  let entry := w16 entry 12 0 in
  let entry := w16 entry 14 0 in
  let entry := w32 entry 16 crc in
  let entry := w32 entry 20 size in
  let entry := w32 entry 24 size in
  let entry := w16 entry 28 (len nameBytes) in
  let entry := w16 entry 30 0 in
  let entry := w16 entry 32 0 in
  let entry := w16 entry 34 0 in
  let entry := w16 entry 36 0 in
  let entry := w32 entry 38 0 in
  let entry := w32 entry 42 localOffset in
  set_at entry nameBytes 46.

(** ** Main API *)

(** A range reader: [readRange start end_]. *)
Definition ZipReadRange : Type := Z -> Z -> res bytes.

(** The [for (const file of files)] loop shared by both variants: the local
    blocks, the CD descriptors [(name, data, offset)] and the final
    [appendOffset]. *)
Fixpoint build_locals (files : list AppendFile) (appendOffset : Z)
  : list bytes * list (string * bytes * Z) * Z :=
  match files with
  | [] => ([], [], appendOffset)
  | file :: rest =>
      let localBlock := buildLocalEntry (fname file) (fdata file) in
      let '(blocks, cds, final) := build_locals rest (appendOffset + len localBlock) in
      (localBlock :: blocks, (fname file, fdata file, appendOffset) :: cds, final)
  end.

Definition sum_len (bs : list bytes) : Z := fold_left (fun n b => n + len b) bs 0.

Definition build_eocd (newTotalEntries newCdSize newCdOffset : Z) : bytes :=
  let newEocd := zeros 22 in
  let newEocd := w32 newEocd 0 SIG_EOCD in
  let newEocd := w16 newEocd 4 0 in
  let newEocd := w16 newEocd 6 0 in
  let newEocd := w16 newEocd 8 newTotalEntries in
  let newEocd := w16 newEocd 10 newTotalEntries in
  let newEocd := w32 newEocd 12 newCdSize in
  let newEocd := w32 newEocd 16 newCdOffset in
  w16 newEocd 20 0.

(** The bytes that follow the unchanged prefix, from the EOCD and the entries
    of the existing archive (steps 2 to 4 of [appendToZipTail], steps 4 to 6
    of [appendToZip]). *)
Definition build_tail (eocd : Eocd) (existingEntries : list CdEntry)
    (files : list AppendFile) : bytes :=
  let '(newLocalBlocks, newCdEntries, appendOffset) := build_locals files (cdOffset eocd) in
  let existingCdRaw := map raw existingEntries in
  let newCdBlocks := map (fun '(name, data, offset) => buildCdEntry name data offset) newCdEntries in
  let newCdSize := sum_len existingCdRaw + sum_len newCdBlocks in
  let newCdOffset := appendOffset in
  let newTotalEntries := len existingEntries + len files in
  let newEocd := build_eocd newTotalEntries newCdSize newCdOffset in
  concat (newLocalBlocks ++ existingCdRaw ++ newCdBlocks ++ [newEocd]).

(** Step 1 of both variants. *)
Definition locate (archiveSize : Z) (readRange : ZipReadRange) : res (Eocd * list CdEntry) :=
  let tailSize := Z.min (65536 + 22) archiveSize in
  tail ← readRange (archiveSize - tailSize) archiveSize;
  eocd ← findEocd tail archiveSize;
  cd ← readRange (cdOffset eocd) (cdOffset eocd + cdSize eocd);
  existingEntries ← parseCentralDirectory cd;
  Ok (eocd, existingEntries).

Definition appendToZip (archiveSize : Z) (readRange : ZipReadRange)
    (files : list AppendFile) (readPrefix : Z -> res bytes) : res bytes :=
  if decide (length files = 0%nat) then readPrefix archiveSize
  else
    '(eocd, existingEntries) ← locate archiveSize readRange;
    originalData ← readPrefix (cdOffset eocd);
    Ok (concat [originalData; build_tail eocd existingEntries files]).

Definition appendToZipTail (archiveSize : Z) (readRange : ZipReadRange)
    (files : list AppendFile) (precomputed : option (Eocd * list CdEntry))
  : res (Z * bytes) :=
  if decide (length files = 0%nat) then Ok (archiveSize, [])
  else
    '(eocd, existingEntries) ←
      match precomputed with
      | Some p => Ok p
      | None => locate archiveSize readRange
      end;
    Ok (cdOffset eocd, build_tail eocd existingEntries files).

End WithCodec.

(** ** Reading a file out of the archive *)

(** [parseLocalHeader]: [(dataOffset, compressedSize)]. *)
Definition parseLocalHeader (slice : bytes) : res (Z * Z) :=
  sig ← u32 slice 0;
  if negb (Z.eqb sig SIG_LOCAL) then Err BadLocalHeader
  else
    compSize ← u32 slice 18;
    nameLen ← u16 slice 26;
    extraLen ← u16 slice 28;
    Ok (30 + nameLen + extraLen, compSize).

Section WithInflate.

(** [DecompressionStream('deflate-raw')] run over one buffer; [None] when
    the stream rejects. *)
Variable inflate : bytes -> option bytes.

Definition readEntryData (entry : CdEntry) (readRange : ZipReadRange) : res bytes :=
  headerSlice ← readRange (localOffset entry) (localOffset entry + 30 + 512);
  local ← parseLocalHeader headerSlice;
  let dataStart := localOffset entry + local.1 in
  raw ← readRange dataStart (dataStart + compressedSize entry);
  if Z.eqb (method entry) 0 then Ok raw
  else if Z.eqb (method entry) 8 then
    match inflate raw with
    | Some out => Ok out
    | None => Err InflateFailed
    end
  else Err UnsupportedMethod.

End WithInflate.

(** ** Vocabulary for the statements about [findEocd] *)

(** The positions the [for] loop visits. *)
Definition in_range (tail : bytes) (i : Z) : Prop :=
  0 <= i /\ len tail - Z.min (len tail) (65535 + 22) <= i <= len tail - 22.

(** Position [i] holds the EOCD signature. *)
Definition has_signature (tail : bytes) (i : Z) : bool :=
  match u32 tail i with
  | Ok s => Z.eqb s SIG_EOCD
  | Err _ => false
  end.

(** Position [i] holds the signature and a record whose disk-entries count
    equals its total-entries count: the scan stops there. *)
Definition is_candidate (tail : bytes) (i : Z) : bool :=
  match u32 tail i, u16 tail (i + 8), u16 tail (i + 10) with
  | Ok s, Ok d, Ok t => Z.eqb s SIG_EOCD && Z.eqb d t
  | _, _, _ => false
  end.

(** The two ZIP64 markers the code looks at. *)
Definition zip64_sentinel (tail : bytes) (i : Z) : bool :=
  match u32 tail (i + 16), u16 tail (i + 10) with
  | Ok o, Ok t => Z.eqb o 0xffffffff || Z.eqb t 0xffff
  | _, _ => false
  end.

Definition record_at (tail : bytes) (archiveSize i : Z) : Eocd :=
  {| offset := i + (archiveSize - len tail);
     entryCount := match u16 tail (i + 10) with Ok t => t | Err _ => 0 end;
     cdSize := match u32 tail (i + 12) with Ok s => s | Err _ => 0 end;
     cdOffset := match u32 tail (i + 16) with Ok o => o | Err _ => 0 end |}.

(** ** Vocabulary for the statements about appending *)

(** The range reader over an archive held in memory, as the tests of the
    module pass it: [(start, end) => buf.subarray(start, end)]. *)
Definition read_archive (A : bytes) : ZipReadRange :=
  fun s e => Ok (subarray A s e).

Definition read_prefix (A : bytes) : Z -> res bytes :=
  fun e => Ok (subarray A 0 e).

(** The EOCD of an archive, found the way every caller does it: from the
    last [min(65536 + 22, size)] octets. *)
Definition archive_eocd (A : bytes) : res Eocd :=
  let tailSize := Z.min (65536 + 22) (len A) in
  findEocd (subarray A (len A - tailSize) (len A)) (len A).

(** [A] is a readable single-disk archive without ZIP64 markers: its EOCD
    and central directory are found and parsed to [eocd] and [entries], the
    directory lies before the EOCD record, and it holds as many entries as
    the record says. *)
Definition valid_archive (decode : bytes -> string) (A : bytes)
    (eocd : Eocd) (entries : list CdEntry) : Prop :=
  locate decode (len A) (read_archive A) = Ok (eocd, entries)
  /\ cdOffset eocd + cdSize eocd <= offset eocd
  /\ len entries = entryCount eocd.

(** The rewritten archive: [originalBytes[0:splitOffset] ++ tail]. *)
Definition rewritten (A : bytes) (splitOffset : Z) (tail : bytes) : bytes :=
  subarray A 0 splitOffset ++ tail.

(** The raw octets of entry [e] sit, unchanged, inside the central directory
    that [eocd'] announces in archive [A']. *)
Definition in_central_directory (A' : bytes) (eocd' : Eocd) (e : CdEntry) : Prop :=
  0 <= cdEntryOffset e
  /\ cdEntryOffset e + cdEntryLength e <= cdSize eocd'
  /\ subarray A' (cdOffset eocd' + cdEntryOffset e)
                 (cdOffset eocd' + cdEntryOffset e + cdEntryLength e) = raw e.

(** The record [findEocd] reads back from one that [build_eocd] wrote at the
    end of an archive of [size] octets. *)
Definition written_eocd (size n s o : Z) : res Eocd :=
  if Z.eqb (toUint32 o) 0xffffffff || Z.eqb (n mod 2 ^ 16) 0xffff then Err Unsupported
  else Ok {| offset := size - 22;
             entryCount := n mod 2 ^ 16;
             cdSize := toUint32 s;
             cdOffset := toUint32 o |}.

(** The three blocks of the tail that precede the new EOCD: new local
    entries, old CD entries, new CD entries. *)
Definition tail_body (encode : string -> bytes) (eocd : Eocd) (entries : list CdEntry) (files : list AppendFile)
  : bytes * bytes * bytes :=
  let '(blocks, cds, _) := build_locals encode files (cdOffset eocd) in
  (mjoin blocks, mjoin (map raw entries),
   mjoin (map (fun '(name, data, offset) => buildCdEntry encode name data offset) cds)).

(** An entry the walk accepts at [pos] is the slice of [cd] it spans. *)
Definition spans (cd : bytes) (pos : Z) (e : CdEntry) : Prop :=
  cdEntryOffset e = pos
  /\ 46 <= cdEntryLength e
  /\ pos + cdEntryLength e <= len cd
  /\ raw e = subarray cd pos (pos + cdEntryLength e).

(** The entries the walk collects from [pos] on follow one another. *)
Fixpoint contiguous (cd : bytes) (pos : Z) (es : list CdEntry) : Prop :=
  match es with
  | [] => True
  | e :: es' => spans cd pos e /\ contiguous cd (pos + cdEntryLength e) es'
  end.

(** Where the last of them ends. *)
Fixpoint cd_end (pos : Z) (es : list CdEntry) : Z :=
  match es with
  | [] => pos
  | e :: es' => cd_end (pos + cdEntryLength e) es'
  end.

(** A codec for file names in ASCII, where UTF-8 is the identity on octets. *)
Definition ascii_decode (b : bytes) : string := string_of_list_byte b.
Definition ascii_encode (s : string) : bytes := list_byte_of_string s.

(** Sample archives: the empty archive, and the archive with one stored
    file ["a"] holding ["hi"]. *)
Definition empty_zip : bytes := build_eocd 0 0 0.

Definition sample_zip : bytes :=
  Eval vm_compute in
    match appendToZipTail ascii_decode ascii_encode (len empty_zip) (read_archive empty_zip)
            [mkAppendFile "a" (ascii_encode "hi")] None with
    | Ok (split, tail) => rewritten empty_zip split tail
    | Err _ => []
    end.

Definition sample_eocd : Eocd :=
  {| offset := 80; entryCount := 1; cdSize := 47; cdOffset := 33 |}.

Definition sample_entries : list CdEntry :=
  Eval vm_compute in
    match locate ascii_decode (len sample_zip) (read_archive sample_zip) with
    | Ok (_, entries) => entries
    | Err _ => []
    end.

Definition sample_files : list AppendFile := [mkAppendFile "b" (ascii_encode "yo")].

(** 65535 empty files. *)
Definition many_files : list AppendFile :=
  replicate (Z.to_nat 0xffff) (mkAppendFile "" []).

(** A lone 22-octet record that claims 1 entry on this disk out of 2. *)
Definition multi_disk_tail : bytes := w16 (build_eocd 2 0 0) 8 1.

(** A lone record whose entry counts are the 16-bit ZIP64 marker. *)
Definition zip64_tail : bytes := build_eocd 0xffff 0 0.

End Zip.

(* ===================================================================== *)
(** * do/WispProxy.ts *)
(* ===================================================================== *)

Module Wisp.

(** Frame types and close reasons. *)
Definition TYPE_CONNECT : Z := 0x01.
Definition TYPE_DATA : Z := 0x02.
Definition TYPE_CONTINUE : Z := 0x03.
Definition TYPE_CLOSE : Z := 0x04.

Definition CLOSE_REASON_VOLUNTARY : Z := 0x01.
Definition CLOSE_REASON_NETWORK_ERROR : Z := 0x02.
Definition CLOSE_REASON_INVALID_INFO : Z := 0x41.

(** ** The host allowlist

    Strings are held as their UTF-8 octets.  The four patterns are anchored
    at both ends and have no flags, so the first three match exactly one
    string each.  In the fourth, a digit is never ['-'], so [\d+] matches
    the whole run of digits after the ['p']. *)

Definition is_digit (c : ascii) : bool :=
  (48 <=? nat_of_ascii c)%nat && (nat_of_ascii c <=? 57)%nat.

Fixpoint skip_digits (s : string) : string :=
  match s with
  | String c r => if is_digit c then skip_digits r else s
  | EmptyString => s
  end.

(** [\d+] at the head of [s]: what follows it, if it matches. *)
Definition digits1 (s : string) : option string :=
  match s with
  | String c r => if is_digit c then Some (skip_digits r) else None
  | EmptyString => None
  end.

(** [/^p\d+-buy\.itunes\.apple\.com$/.test(h)] *)
Definition match_pod (h : string) : bool :=
  match h with
  | String "p" r =>
      match digits1 r with
      | Some rest => String.eqb rest "-buy.itunes.apple.com"
      | None => false
      end
  | _ => false
  end.

Definition ALLOWED_HOSTS : list (string -> bool) :=
  [ String.eqb "auth.itunes.apple.com";
    String.eqb "buy.itunes.apple.com";
    String.eqb "init.itunes.apple.com";
    match_pod ].

(** [ALLOWED_HOSTS.some((r) => r.test(hostname))] *)
Definition allowed_host (hostname : string) : bool :=
  existsb (fun r => r hostname) ALLOWED_HOSTS.

(** ** Literal IP addresses (vocabulary of the admission statement) *)

(** A dotted quad, [^\d+\.\d+\.\d+\.\d+$]. *)
Definition is_ipv4_literal (h : string) : bool :=
  match digits1 h with
  | Some (String "." r1) =>
      match digits1 r1 with
      | Some (String "." r2) =>
          match digits1 r2 with
          | Some (String "." r3) =>
              match digits1 r3 with
              | Some EmptyString => true
              | _ => false
              end
          | _ => false
          end
      | _ => false
      end
  | _ => false
  end.

Fixpoint ends_with_bracket (s : string) : bool :=
  match s with
  | EmptyString => false
  | String "]" EmptyString => true
  | String _ r => ends_with_bracket r
  end.

(** A bracketed IPv6 address, ["[...]"]. *)
Definition is_ipv6_literal (h : string) : bool :=
  match h with
  | String "[" r => ends_with_bracket r
  | _ => false
  end.

Definition is_literal_ip (h : string) : bool := is_ipv4_literal h || is_ipv6_literal h.

(** ** Session state and effects *)

(** A TCP writer handle. *)
Definition writer_handle : Type := nat.

Record Stream : Type := mkStream { writer : writer_handle }.

Record session : Type := mkSession {
  streams : gmap Z Stream;     (* streamId -> open stream *)
  ws : option nat              (* the server side of the WebSocket pair *)
}.

Inductive effect : Type :=
| WsSend (frame : bytes)                       (* this.ws.send(frame) *)
| SocketConnect (hostname : string) (port : Z) (* connect({hostname, port}, ...) *)
| WriterWrite (w : writer_handle) (payload : bytes)
| WriterClose (w : writer_handle).

(** What the platform answers to [connect(...)]: a socket, or an exception. *)
Inductive connect_outcome : Type :=
| Connected (w : writer_handle)
| ConnectThrows.

Inductive ws_message : Type :=
| Text (s : string)
| Binary (buf : bytes).

(** ** Views over octets *)

Definition byte_at (buf : bytes) (i : nat) : Z :=
  match buf !! i with
  | Some b => Z_of_byte b
  | None => 0
  end.

(** [dv.getUint16(off, true)] *)
Definition getUint16 (buf : bytes) (off : nat) : option Z :=
  if decide (off + 2 <= length buf)%nat
  then Some (byte_at buf off + 256 * byte_at buf (off + 1))
  else None.

(** [dv.getUint32(off, true)] *)
Definition getUint32 (buf : bytes) (off : nat) : option Z :=
  if decide (off + 4 <= length buf)%nat
  then Some (byte_at buf off + 256 * byte_at buf (off + 1)
             + 65536 * byte_at buf (off + 2) + 16777216 * byte_at buf (off + 3))
  else None.

(** [dv.setUint32(off, v, true)] written out as four octets. *)
Definition uint32_le (v : Z) : bytes :=
  [ byte_of_Z v; byte_of_Z (v / 256); byte_of_Z (v / 65536); byte_of_Z (v / 16777216) ].

(** ** Frame builders *)

Definition data_frame (streamId : Z) (data : bytes) : bytes :=
  byte_of_Z TYPE_DATA :: uint32_le streamId ++ data.

Definition continue_frame (streamId bufferRemaining : Z) : bytes :=
  byte_of_Z TYPE_CONTINUE :: uint32_le streamId ++ uint32_le bufferRemaining.

Definition close_frame (streamId reason : Z) : bytes :=
  byte_of_Z TYPE_CLOSE :: uint32_le streamId ++ [byte_of_Z reason].

Definition sendData (st : session) (streamId : Z) (data : bytes) : list effect :=
  match ws st with
  | None => []
  | Some _ => [WsSend (data_frame streamId data)]
  end.

Definition sendContinue (st : session) (streamId bufferRemaining : Z) : list effect :=
  match ws st with
  | None => []
  | Some _ => [WsSend (continue_frame streamId bufferRemaining)]
  end.

Definition sendClose (st : session) (streamId reason : Z) : list effect :=
  match ws st with
  | None => []
  | Some _ => [WsSend (close_frame streamId reason)]
  end.

Section WithDecoder.

Variable decode : bytes -> string.   (* new TextDecoder().decode *)

(** [fetch]: the upgrade stores the server socket and sends the initial
    credit on stream 0. *)
Definition fetch (st : session) (server : nat) : session * list effect :=
  let st' := {| streams := streams st; ws := Some server |} in
  (st', sendContinue st' 0 (128 * 1024)).

(** ** CONNECT *)

(** The three fields of a CONNECT payload, as [handleConnect] reads them. *)
Definition connect_streamType (payload : bytes) : Z := byte_at payload 0.
Definition connect_port (payload : bytes) : option Z := getUint16 payload 1.
Definition connect_hostname (payload : bytes) : string := decode (drop 3 payload).

Definition handleConnect (st : session) (streamId : Z) (payload : bytes)
    (sock : connect_outcome) : session * list effect :=
  if decide (length payload < 4)%nat then
    (st, sendClose st streamId CLOSE_REASON_INVALID_INFO)
  else
    let streamType := connect_streamType payload in
    match connect_port payload with
    | None => (st, [])   (* the view would throw; excluded by the length test *)
    | Some port =>
        let hostname := connect_hostname payload in
        if negb (Z.eqb streamType 1) || negb (Z.eqb port 443) || negb (allowed_host hostname)
        then (st, sendClose st streamId CLOSE_REASON_INVALID_INFO)
        else
          match sock with
          | Connected w =>
              let st' := {| streams := <[streamId := mkStream w]> (streams st); ws := ws st |} in
              (st', SocketConnect hostname port :: sendContinue st' streamId (128 * 1024))
          | ConnectThrows =>
              (st, SocketConnect hostname port
                     :: sendClose st streamId CLOSE_REASON_NETWORK_ERROR)
          end
    end.

(** ** DATA and CLOSE *)

(** [write_ok] says whether [stream.writer.write(payload)] resolves. *)
Definition handleData (st : session) (streamId : Z) (payload : bytes) (write_ok : bool)
  : session * list effect :=
  match streams st !! streamId with
  | None => (st, [])
  | Some stream =>
      if write_ok then (st, [WriterWrite (writer stream) payload])
      else
        ({| streams := delete streamId (streams st); ws := ws st |},
         WriterWrite (writer stream) payload
           :: sendClose st streamId CLOSE_REASON_NETWORK_ERROR)
  end.

Definition handleClose (st : session) (streamId : Z) : session * list effect :=
  match streams st !! streamId with
  | None => (st, [])
  | Some stream =>
      ({| streams := delete streamId (streams st); ws := ws st |},
       [WriterClose (writer stream)])
  end.

Definition closeAllStreams (st : session) : session * list effect :=
  ({| streams := ∅; ws := ws st |},
   map (fun kv => WriterClose (writer kv.2)) (map_to_list (streams st))).

(** ** The frame dispatcher *)

Definition webSocketMessage (st : session) (message : ws_message)
    (sock : connect_outcome) (write_ok : bool) : session * list effect :=
  match message with
  | Text _ => (st, [])
  | Binary buf =>
      if decide (length buf < 5)%nat then (st, [])
      else
        let type := byte_at buf 0 in
        match getUint32 buf 1 with
        | None => (st, [])
        | Some streamId =>
            let payload := drop 5 buf in
            if Z.eqb type TYPE_CONNECT then handleConnect st streamId payload sock
            else if Z.eqb type TYPE_DATA then handleData st streamId payload write_ok
            else if Z.eqb type TYPE_CLOSE then handleClose st streamId
            else (st, [])
        end
  end.

(** ** Vocabulary of the admission statement *)

(** The frame is a CONNECT frame the dispatcher hands to [handleConnect]. *)
Definition is_connect_frame (buf : bytes) : Prop :=
  (5 <= length buf)%nat /\ byte_at buf 0 = TYPE_CONNECT.

Definition frame_streamId (buf : bytes) : Z := default 0 (getUint32 buf 1).
Definition frame_payload (buf : bytes) : bytes := drop 5 buf.

(** The admission check of [handleConnect] passes. *)
Definition admitted (payload : bytes) : bool :=
  bool_decide (4 <= length payload)%nat
  && Z.eqb (connect_streamType payload) 1
  && bool_decide (connect_port payload = Some 443)
  && allowed_host (connect_hostname payload).

End WithDecoder.

(** Sample frames: a CONNECT to [evil.com:443] and one to
    [auth.itunes.apple.com:443], both of stream type 1 on stream 7. *)
Definition connect_frame (streamId streamType port : Z) (hostname : string) : bytes :=
  byte_of_Z TYPE_CONNECT :: uint32_le streamId
    ++ [byte_of_Z streamType; byte_of_Z port; byte_of_Z (port / 256)]
    ++ list_byte_of_string hostname.

Definition evil_frame : bytes := connect_frame 7 1 443 "evil.com".
Definition auth_frame : bytes := connect_frame 7 1 443 "auth.itunes.apple.com".
Definition open_session : session := {| streams := ∅; ws := Some 0%nat |}.

End Wisp.

(* ===================================================================== *)
(** * middleware/auth.ts: the proof-of-work gate *)
(* ===================================================================== *)

Module Pow.

Definition POW_CHALLENGE_TTL : Z := 60.   (* seconds *)
Definition MAX_USED_CHALLENGES : Z := 10000.

(** ** String primitives *)

(** [s.indexOf(':')] *)
Fixpoint indexOf_colon (s : string) : option nat :=
  match s with
  | EmptyString => None
  | String c r => if Ascii.eqb c ":" then Some 0%nat else S <$> indexOf_colon r
  end.

(** [s.lastIndexOf(':')] *)
Fixpoint lastIndexOf_colon (s : string) : option nat :=
  match s with
  | EmptyString => None
  | String c r =>
      match lastIndexOf_colon r with
      | Some i => Some (S i)
      | None => if Ascii.eqb c ":" then Some 0%nat else None
      end
  end.

(** [s.slice(0, i)] and [s.slice(i)] for an index inside [s]. *)
Definition slice_to (s : string) (i : nat) : string := String.substring 0 i s.
Definition slice_from (s : string) (i : nat) : string :=
  String.substring i (String.length s - i) s.

(** ** Leading zero bits *)

(** The [for] loop of [hasLeadingZeroBits], over the octets that are left. *)
Fixpoint hasLeadingZeroBits (hash : bytes) (remaining : Z) : bool :=
  match hash with
  | [] => true
  | b :: rest =>
      if remaining >? 0 then
        if remaining >=? 8 then
          if negb (Z.eqb (Z_of_byte b) 0) then false
          else hasLeadingZeroBits rest (remaining - 8)
        else
          let mask := Z.shiftl 0xff (8 - remaining) in
          if negb (Z.eqb (Z.land (Z_of_byte b) mask) 0) then false
          else true
      else true
  end.

(** ** verifyPow *)

(** What a call does: it returns a boolean, or it throws (the decoder of the
    signature rejects its input). *)
Inductive outcome : Type :=
| Returned (b : bool)
| Thrown.

Section WithPlatform.

(** The platform: HMAC verification under the process key, the base64
    decoder ([None] when [atob] throws), SHA-256 of a string, and
    [parseInt(s, 10)] ([None] for [NaN]). *)
Variable hmac_verify : bytes -> string -> bool.
Variable base64urlDecode : string -> option bytes.
Variable sha256 : string -> bytes.
Variable parseInt : string -> option Z.

(** [Math.min(24, Math.max(16, parseInt(env.POW_DIFFICULTY ?? '18', 10) || 18))] *)
Definition difficulty (env_POW_DIFFICULTY : option string) : Z :=
  let parsed := parseInt (default "18"%string env_POW_DIFFICULTY) in
  let d := match parsed with
           | Some v => if Z.eqb v 0 then 18 else v
           | None => 18
           end in
  Z.min 24 (Z.max 16 d).

(** [usedChallenges] is the module-level map; [now] and [now2] are the two
    readings of the clock, in seconds. *)
Definition verifyPow (usedChallenges : gmap string Z) (challenge nonce : string)
    (env_POW_DIFFICULTY : option string) (now now2 : Z)
  : outcome * gmap string Z :=
  match lastIndexOf_colon challenge with
  | None => (Returned false, usedChallenges)
  | Some lastColon =>
      let payload := slice_to challenge lastColon in
      let sigB64 := slice_from challenge (lastColon + 1) in
      if bool_decide (is_Some (usedChallenges !! challenge)) then
        (Returned false, usedChallenges)
      else
        match base64urlDecode sigB64 with
        | None => (Thrown, usedChallenges)
        | Some sig =>
            if negb (hmac_verify sig payload) then (Returned false, usedChallenges)
            else
              match indexOf_colon payload with
              | None => (Returned false, usedChallenges)
              | Some firstColon =>
                  let timestamp := parseInt (slice_to payload firstColon) in
                  let stale := match timestamp with
                               | Some ts => now - ts >? POW_CHALLENGE_TTL
                               | None => false   (* a comparison with NaN is false *)
                               end in
                  if stale then (Returned false, usedChallenges)
                  else
                    let hash := sha256 (challenge ++ nonce)%string in
                    if negb (hasLeadingZeroBits hash (difficulty env_POW_DIFFICULTY))
                    then (Returned false, usedChallenges)
                    else
                      let used := <[challenge := now2]> usedChallenges in
                      let used :=
                        if Z.of_nat (size used) >? MAX_USED_CHALLENGES
                        then filter (fun kv : string * Z =>
                                       (now2 - kv.2 >? POW_CHALLENGE_TTL * 2) = false) used
                        else used in
                      (Returned true, used)
              end
        end
  end.

(** The timestamp a challenge carries, as [verifyPow] reads it. *)
Definition challenge_timestamp (challenge : string) : option Z :=
  lastColon ← lastIndexOf_colon challenge;
  let payload := slice_to challenge lastColon in
  firstColon ← indexOf_colon payload;
  parseInt (slice_to payload firstColon).

(** ** Sequences of calls *)

Record call : Type := mkCall {
  call_challenge : string;
  call_nonce : string;
  call_env : option string;
  call_now : Z;
  call_now2 : Z
}.

Definition do_call (used : gmap string Z) (c : call) : outcome * gmap string Z :=
  verifyPow used (call_challenge c) (call_nonce c) (call_env c) (call_now c) (call_now2 c).

Definition run_calls (used : gmap string Z) (calls : list call) : gmap string Z :=
  fold_left (fun u c => (do_call u c).2) calls used.

End WithPlatform.

(** ** A toy platform for examples *)

Fixpoint parse_digits (s : string) (acc : option Z) : option Z :=
  match s with
  | EmptyString => acc
  | String c r =>
      let n := Z.of_nat (nat_of_ascii c) in
      if (48 <=? n) && (n <=? 57)
      then parse_digits r (Some (10 * default 0 acc + (n - 48)))
      else acc
  end.

(** Decimal [parseInt] on unsigned input without leading blanks. *)
Definition toy_parseInt (s : string) : option Z := parse_digits s None.

Definition toy_hmac_verify (sig : bytes) (payload : string) : bool := true.
Definition toy_base64urlDecode (s : string) : option bytes := Some [].
Definition toy_sha256 (s : string) : bytes := replicate 32 x00.

Definition sample_challenge : string := "1000:uuid:sig".

End Pow.

(* ===================================================================== *)
(** * do/DownloadManager.ts: streaming a download into multipart parts *)
(* ===================================================================== *)

Module Upload.

(** config.ts *)
Definition MAX_DOWNLOAD_SIZE : Z := 8 * 1024 * 1024 * 1024.
Definition UPLOAD_PART_SIZE : Z := 25 * 1024 * 1024.

(** ** mergeChunks and mergeAll *)

(** The state of the [for] loop of [mergeChunks]. *)
Record merge_state : Type := mkMerge {
  merged : bytes;
  pos : Z;
  remaining : list bytes;
  filled : bool
}.

Definition merge_step (size : Z) (m : merge_state) (chunk : bytes) : merge_state :=
  if filled m then
    {| merged := merged m; pos := pos m; remaining := remaining m ++ [chunk]; filled := true |}
  else
    let need := size - pos m in
    if len chunk <=? need then
      {| merged := set_at (merged m) chunk (Z.to_nat (pos m));
         pos := pos m + len chunk;
         remaining := remaining m;
         filled := Z.eqb (pos m + len chunk) size |}
    else
      {| merged := set_at (merged m) (take (Z.to_nat need) chunk) (Z.to_nat (pos m));
         pos := pos m;
         remaining := remaining m ++ [drop (Z.to_nat need) chunk];
         filled := true |}.

(** Take exactly [size] octets from [chunks]: the merged part and what is
    left. *)
Definition mergeChunks (chunks : list bytes) (size : Z) : bytes * list bytes :=
  let m := fold_left (merge_step size) chunks
             {| merged := zeros (Z.to_nat size); pos := 0; remaining := []; filled := false |} in
  (merged m, remaining m).

(** [mergeAll(chunks, totalSize)]; [None] when a [set] would not fit. *)
Definition mergeAll (chunks : list bytes) (totalSize : Z) : option bytes :=
  (fold_left
     (fun (acc : option (bytes * Z)) (c : bytes) =>
        '(out, pos) ← acc;
        if pos + len c <=? len out then Some (set_at out c (Z.to_nat pos), pos + len c)
        else None)
     chunks (Some (zeros (Z.to_nat totalSize), 0))) ≫= (fun r => Some r.1).

(** ** streamToR2 *)

Inductive stream_error : Type :=
| AbortError        (* the signal was aborted *)
| FileTooLarge      (* 'File too large' *)
| ReadError         (* the body reader rejected, or the stall timer fired *)
| UploadError       (* uploadPart rejected *)
| RangeError        (* a typed-array store did not fit *)
| OutOfFuel.        (* the bound of a modelled loop was too small; shown unreachable *)

(** What the loop meets each time round: the signal is found aborted, the
    read fails, or a chunk arrives.  The end of the list is [done]. *)
Inductive read_event : Type :=
| SignalAborted
| ReadFails
| Chunk (value : bytes).

(** An uploaded part: its part number and its octets. *)
Record part : Type := mkPart {
  partNumber : Z;
  body : bytes
}.

Record state : Type := mkState {
  partNum : Z;                          (* next part number *)
  parts : list part;                    (* the [parts] array *)
  chunks : list bytes;
  bufferSize : Z;
  pendingUpload : option (part * bool); (* the in-flight upload and how it will settle *)
  downloaded : Z;
  uploaded : list part                  (* what the blob store received, in order *)
}.

Definition initial : state :=
  {| partNum := 1; parts := []; chunks := []; bufferSize := 0;
     pendingUpload := None; downloaded := 0; uploaded := [] |}.

Section WithConfig.

Variable partSize : Z.       (* UPLOAD_PART_SIZE *)
Variable maxDownload : Z.    (* MAX_DOWNLOAD_SIZE *)
Variable upload_ok : Z -> bool.   (* does uploadPart(n, ...) resolve? *)

(** A step either goes on with a new state or throws; the state at the
    throw is kept, for the record of what the blob store had received when
    the [catch] block calls [upload.abort()]. *)
Definition step_result : Type := result (stream_error * state) state.

(** [if (pendingUpload) await pendingUpload; pendingUpload = null] *)
Definition await_pending (st : state) : step_result :=
  match pendingUpload st with
  | None => Ok st
  | Some (p, true) =>
      Ok {| partNum := partNum st; parts := parts st ++ [p]; chunks := chunks st;
            bufferSize := bufferSize st; pendingUpload := None;
            downloaded := downloaded st; uploaded := uploaded st |}
  | Some (_, false) => Err (UploadError, st)
  end.

(** One turn of a [while] loop that cuts a full part and uploads it:
    [mergeChunks], [bufferSize -= UPLOAD_PART_SIZE],
    [await upload.uploadPart(partNum++, part.merged)], [parts.push]. *)
Definition upload_full_part (st : state) : step_result :=
  let '(merged, remaining) := mergeChunks (chunks st) partSize in
  let num := partNum st in
  if upload_ok num then
    Ok {| partNum := num + 1;
          parts := parts st ++ [mkPart num merged];
          chunks := remaining;
          bufferSize := bufferSize st - partSize;
          pendingUpload := pendingUpload st;
          downloaded := downloaded st;
          uploaded := uploaded st ++ [mkPart num merged] |}
  else Err (UploadError, st).

(** [while (bufferSize >= bound) { ... }] *)
Fixpoint upload_while (fuel : nat) (bound : Z) (st : state) : step_result :=
  if bufferSize st >=? bound then
    match fuel with
    | O => Err (OutOfFuel, st)
    | S fuel' => st' ← upload_full_part st; upload_while fuel' bound st'
    end
  else Ok st.

(** The turns a loop over [st] can take. *)
Definition turns (st : state) : nat := Z.to_nat (bufferSize st / partSize).

(** The last step of [flushBuffer]: the part is cut and its upload starts,
    but its result is pushed only when the promise is awaited. *)
Definition fire_pending (st : state) : state :=
  if bufferSize st >=? partSize then
    let '(merged, remaining) := mergeChunks (chunks st) partSize in
    let num := partNum st in
    let p := mkPart num merged in
    {| partNum := num + 1;
       parts := parts st;
       chunks := remaining;
       bufferSize := bufferSize st - partSize;
       pendingUpload := Some (p, upload_ok num);
       downloaded := downloaded st;
       uploaded := if upload_ok num then uploaded st ++ [p] else uploaded st |}
  else st.

Definition flushBuffer (st : state) : step_result :=
  st ← await_pending st;
  st ← upload_while (turns st) (partSize * 2) st;
  Ok (fire_pending st).

(** One turn of the read loop on a chunk.  (The progress record written
    every two seconds does not touch the upload and is left out.) *)
Definition on_chunk (st : state) (value : bytes) : step_result :=
  let downloaded' := downloaded st + len value in
  if downloaded' >? maxDownload then Err (FileTooLarge, st)
  else
    let st := {| partNum := partNum st; parts := parts st;
                 chunks := chunks st ++ [value];
                 bufferSize := bufferSize st + len value;
                 pendingUpload := pendingUpload st;
                 downloaded := downloaded';
                 uploaded := uploaded st |} in
    if bufferSize st >=? partSize then flushBuffer st else Ok st.

(** After [done]: drain the pending upload, upload the remaining full
    parts, then the trailing partial one. *)
Definition finish (st : state) : step_result :=
  st ← await_pending st;
  st ← upload_while (turns st) partSize st;
  if bufferSize st >? 0 then
    match mergeAll (chunks st) (bufferSize st) with
    | None => Err (RangeError, st)
    | Some final =>
        let num := partNum st in
        if upload_ok num then
          Ok {| partNum := num + 1;
                parts := parts st ++ [mkPart num final];
                chunks := chunks st;
                bufferSize := bufferSize st;
                pendingUpload := pendingUpload st;
                downloaded := downloaded st;
                uploaded := uploaded st ++ [mkPart num final] |}
        else Err (UploadError, st)
    end
  else Ok st.

(** The read loop. *)
Fixpoint read_loop (events : list read_event) (st : state) : step_result :=
  match events with
  | [] => Ok st
  | SignalAborted :: _ => Err (AbortError, st)
  | ReadFails :: _ => Err (ReadError, st)
  | Chunk value :: rest => st' ← on_chunk st value; read_loop rest st'
  end.

(** [parts.sort((a, b) => a.partNumber - b.partNumber)] *)
Definition sort_parts (ps : list part) : list part := sort_by partNumber ps.

(** How a run ends: [upload.complete(parts)] is called, or the multipart
    upload is aborted and the error rethrown. *)
Inductive ending : Type :=
| Completed (submitted : list part)
| Failed (e : stream_error).

Record run : Type := mkRun {
  ending_of : ending;
  received : list part     (* every part the blob store received, in order *)
}.

Definition streamToR2_with (events : list read_event) : run :=
  match read_loop events initial ≫= finish with
  | Err (e, st) => {| ending_of := Failed e; received := uploaded st |}
  | Ok st => {| ending_of := Completed (sort_parts (parts st)); received := uploaded st |}
  end.

End WithConfig.

Definition streamToR2 (upload_ok : Z -> bool) (events : list read_event) : run :=
  streamToR2_with UPLOAD_PART_SIZE MAX_DOWNLOAD_SIZE upload_ok events.

(** ** Vocabulary of the statements on parts *)

(** Every received part but the one with the highest number has [size]
    octets. *)
Definition all_full_but_highest (size : Z) (ps : list part) : Prop :=
  forall p q, p ∈ ps -> q ∈ ps -> partNumber p < partNumber q -> len (body p) = size.

(** The part numbers are 1, 2, ..., n in this order. *)
Definition consecutive_from_1 (ps : list part) : Prop :=
  map partNumber ps = map Z.of_nat (seq 1 (length ps)).

(** ** Invariants of a run *)

Section Invariants.

Variable partSize : Z.

Definition full (p : part) : Prop := len (body p) = partSize.

(** What the blob store has received is numbered 1, 2, ... and made of full
    parts. *)
Definition good (st : state) : Prop :=
  consecutive_from_1 (uploaded st) /\ Forall full (uploaded st).

(** [parts] and the pending slot account for everything received, and the
    next number follows. *)
Definition synced (st : state) : Prop :=
  match pendingUpload st with
  | None => parts st = uploaded st /\ partNum st = len (uploaded st) + 1
  | Some (p, true) => parts st ++ [p] = uploaded st /\ partNum st = len (uploaded st) + 1
  | Some (_, false) => True
  end.

Definition inv (st : state) : Prop := good st /\ synced st.
Definition idle (st : state) : Prop := pendingUpload st = None.

(** A step keeps the invariant, and throws only in a good state and never
    for want of fuel. *)
Definition keeps (post : state -> Prop) (r : step_result) : Prop :=
  match r with
  | Ok st' => inv st' /\ post st'
  | Err (e, st') => good st' /\ e <> OutOfFuel
  end.

(** All received parts are full, but possibly the last one. *)
Definition full_but_last (ps : list part) : Prop :=
  exists init tl, ps = init ++ tl /\ Forall full init /\ (length tl <= 1)%nat.

End Invariants.

(** A body of two small chunks, and the single part it is stored as. *)
Definition sample_body : list read_event :=
  [Chunk (list_byte_of_string "abcd"); Chunk (list_byte_of_string "xyz")].

Definition sample_parts : list part := [mkPart 1 (list_byte_of_string "abcdxyz")].

End Upload.

(* ===================================================================== *)
(** * do/DownloadManager.ts: the task store *)
(* ===================================================================== *)

Module Store.

(** ** JSON values and task records *)

Inductive jsval : Type :=
| JUndefined
| JNull
| JBool (b : bool)
| JNum (n : Z)
| JStr (s : string)
| JArr (items : list jsval)
| JObj (fields : list (string * jsval)).

(** A JavaScript object seen from outside: its own properties. *)
Abbreviation object := (gmap string jsval).

Inductive status : Type :=
| pending | downloading | paused | injecting | completed | failed.

#[global] Instance status_eq_dec : EqDecision status.
Proof. solve_decision. Defined.

Definition status_string (s : status) : string :=
  match s with
  | pending => "pending" | downloading => "downloading" | paused => "paused"
  | injecting => "injecting" | completed => "completed" | failed => "failed"
  end.

(** types.ts is not part of the sources at hand; the records below hold the
    fields the manager reads and writes, and keep every other property of a
    stored object in [display] and [extra]. *)
Record Software : Type := mkSoftware {
  bundleID : string;
  version : string;
  name : string;
  display : list (string * jsval)
}.

Record Sinf : Type := mkSinf {
  sinf_id : Z;
  sinf : string          (* base64 *)
}.

Record DownloadTask : Type := mkTask {
  id : string;
  software : Software;
  accountHash : string;
  downloadURL : string;
  sinfs : list Sinf;
  iTunesMetadata : option string;
  status_of : status;
  progress : Z;
  speed : string;
  error : option string;
  createdAt : Z;         (* the instant of [createdAt], in milliseconds *)
  extra : object         (* any other property of the stored object *)
}.

Definition software_object (s : Software) : jsval :=
  JObj (("bundleID", JStr (bundleID s)) :: ("version", JStr (version s))
          :: ("name", JStr (name s)) :: display s)%string.

Definition sinf_object (s : Sinf) : jsval :=
  JObj [("id", JNum (sinf_id s)); ("sinf", JStr (sinf s))]%string.

Definition set_optional (key : string) (v : option string) (o : object) : object :=
  match v with
  | Some s => <[key := JStr s]> o
  | None => delete key o
  end.

(** The properties of a task object. *)
Definition task_object (t : DownloadTask) : object :=
  <["id" := JStr (id t)]>
  (<["software" := software_object (software t)]>
  (<["accountHash" := JStr (accountHash t)]>
  (<["downloadURL" := JStr (downloadURL t)]>
  (<["sinfs" := JArr (map sinf_object (sinfs t))]>
  (set_optional "iTunesMetadata" (iTunesMetadata t)
  (<["status" := JStr (status_string (status_of t))]>
  (<["progress" := JNum (progress t)]>
  (<["speed" := JStr (speed t)]>
  (set_optional "error" (error t)
  (<["createdAt" := JNum (createdAt t)]> (extra t))))))))))).

(** ** sanitize *)

(** [const { downloadURL, sinfs, iTunesMetadata, filePath, ...safe } = task;
     return { ...safe, hasFile, fileSize }] *)
Definition sanitize (task : object) (hasFile : bool) (fileSize : option Z) : object :=
  let safe :=
    delete "filePath" (delete "iTunesMetadata" (delete "sinfs" (delete "downloadURL" task))) in
  <["fileSize" := match fileSize with Some n => JNum n | None => JUndefined end]>
    (<["hasFile" := JBool hasFile]> safe).

(** The four fields that must not leave the store. *)
Definition secret_fields : list string :=
  ["downloadURL"; "sinfs"; "iTunesMetadata"; "filePath"]%string.

Definition no_secrets (o : object) : Prop :=
  Forall (fun f => o !! f = None) secret_fields.

(** ** The store *)

(** Durable storage ([task:<id>], [r2key:<id>], [accounts:<hash>]), the
    in-memory map of running downloads (the abort controller of a run,
    together with the task object the run holds), and the blob store as
    the janitor sees it (key and size). *)
Record store : Type := mkStore {
  tasks : gmap string DownloadTask;
  r2keys : gmap string string;
  accounts : gmap string (list string);
  runs : gmap string DownloadTask;
  bucket : gmap string Z
}.

Definition empty_store : store :=
  {| tasks := ∅; r2keys := ∅; accounts := ∅; runs := ∅; bucket := ∅ |}.

Definition with_tasks (st : store) (m : gmap string DownloadTask) : store :=
  {| tasks := m; r2keys := r2keys st; accounts := accounts st; runs := runs st;
     bucket := bucket st |}.
Definition with_r2keys (st : store) (m : gmap string string) : store :=
  {| tasks := tasks st; r2keys := m; accounts := accounts st; runs := runs st;
     bucket := bucket st |}.
Definition with_accounts (st : store) (m : gmap string (list string)) : store :=
  {| tasks := tasks st; r2keys := r2keys st; accounts := m; runs := runs st;
     bucket := bucket st |}.
Definition with_runs (st : store) (m : gmap string DownloadTask) : store :=
  {| tasks := tasks st; r2keys := r2keys st; accounts := accounts st; runs := m;
     bucket := bucket st |}.
Definition with_bucket (st : store) (m : gmap string Z) : store :=
  {| tasks := tasks st; r2keys := r2keys st; accounts := accounts st; runs := runs st;
     bucket := m |}.

(** ** Storage helpers *)

Definition saveTask (st : store) (task : DownloadTask) : store :=
  with_tasks st (<[id task := task]> (tasks st)).

Definition loadTask (st : store) (i : string) : option DownloadTask := tasks st !! i.

Definition addToAccountIndex (st : store) (hash taskId : string) : store :=
  let existing := default [] (accounts st !! hash) in
  if bool_decide (taskId ∈ existing) then st
  else with_accounts st (<[hash := existing ++ [taskId]]> (accounts st)).

Definition removeFromAccountIndex (st : store) (hash taskId : string) : store :=
  let existing := default [] (accounts st !! hash) in
  with_accounts st (<[hash := filter (fun i => i ≠ taskId) existing]> (accounts st)).

(** A string in a condition: the empty string counts as absent. *)
Definition truthy (s : option string) : option string :=
  match s with
  | Some ""%string => None
  | other => other
  end.

(** [r2key ? await IPA_BUCKET.head(r2key) : null], as the size of the object *)
Definition head_of (st : store) (i : string) : option Z :=
  k ← truthy (r2keys st !! i); bucket st !! k.

(** [packages/<accountHash>/<bundleID>/<id>.ipa] *)
Definition artifact_key (hash bundle i : string) : string :=
  ("packages/" ++ hash ++ "/" ++ bundle ++ "/" ++ i ++ ".ipa")%string.

(** ** Validation *)

Inductive store_error : Type :=
| InvalidURL          (* 'Invalid download URL' *)
| NotHttps            (* 'Download URL must use HTTPS' *)
| NotApple            (* 'Download URL must be from *.apple.com' *)
| IpAddress           (* 'Download URL must not use IP addresses' *)
| InvalidAccountHash  (* 'Invalid accountHash' *)
| Conflict (name version : string).  (* 'Already downloading: <name> v<version>' *)

Definition MIN_ACCOUNT_HASH_LENGTH : Z := 8.

Definition lower (c : ascii) : ascii :=
  let n := nat_of_ascii c in
  if (65 <=? n)%nat && (n <=? 90)%nat then ascii_of_nat (n + 32) else c.

Fixpoint lower_string (s : string) : string :=
  match s with
  | EmptyString => EmptyString
  | String c r => String (lower c) (lower_string r)
  end.

Fixpoint ends_with (suffix s : string) : bool :=
  String.eqb s suffix ||
  match s with
  | EmptyString => false
  | String _ r => ends_with suffix r
  end.

(** [/\.apple\.com$/i.test(hostname)] *)
Definition ALLOWED_DOWNLOAD_RE (hostname : string) : bool :=
  ends_with ".apple.com" (lower_string hostname).

Section WithUrl.

(** [new URL(url)]: the protocol and the host name, or [None] when the
    constructor throws. *)
Variable parse_url : string -> option (string * string).

Definition validateDownloadURL (url : string) : result store_error unit :=
  match parse_url url with
  | None => Err InvalidURL
  | Some (protocol, hostname) =>
      if negb (String.eqb protocol "https:") then Err NotHttps
      else if negb (ALLOWED_DOWNLOAD_RE hostname) then Err NotApple
      else if Wisp.is_ipv4_literal hostname then Err IpAddress
      else Ok ()
  end.

(** ** RPC methods *)

Record CreateTaskParams : Type := mkParams {
  p_software : Software;
  p_accountHash : string;
  p_downloadURL : string;
  p_sinfs : list Sinf;
  p_iTunesMetadata : option string
}.

(** The test of the deduplication loop on one stored task. *)
Definition same_download (params : CreateTaskParams) (existing : DownloadTask) : bool :=
  String.eqb (bundleID (software existing)) (bundleID (p_software params))
  && String.eqb (version (software existing)) (version (p_software params))
  && negb (bool_decide (status_of existing = failed)).

(** The first id of the account index whose task makes the loop throw. *)
Definition find_duplicate (st : store) (params : CreateTaskParams) : option DownloadTask :=
  let existingIds := default [] (accounts st !! p_accountHash params) in
  list_find (fun existing => same_download params existing = true)
            (omap (loadTask st) existingIds)
  ≫= (fun r => Some r.2).

(** The part of [startDownload] that runs before its first suspension: the
    controller is registered, the task object is reset and saved.  The
    object is shared with the caller. *)
Definition startDownload_begin (st : store) (task : DownloadTask) : store * DownloadTask :=
  let task' := {| id := id task; software := software task; accountHash := accountHash task;
                  downloadURL := downloadURL task; sinfs := sinfs task;
                  iTunesMetadata := iTunesMetadata task;
                  status_of := downloading; progress := 0; speed := "0 B/s";
                  error := None; createdAt := createdAt task; extra := extra task |} in
  (saveTask (with_runs st (<[id task := task']> (runs st))) task', task').

(** [uuid] is what [crypto.randomUUID()] returns and [now] the clock. *)
Definition createTask (st : store) (params : CreateTaskParams) (uuid : string) (now : Z)
  : result store_error (store * object) :=
  _ ← validateDownloadURL (p_downloadURL params);
  if Z.of_nat (String.length (p_accountHash params)) <? MIN_ACCOUNT_HASH_LENGTH
  then Err InvalidAccountHash
  else
    match find_duplicate st params with
    | Some existing =>
        Err (Conflict (name (software existing)) (version (software existing)))
    | None =>
        let task := {| id := uuid; software := p_software params;
                       accountHash := p_accountHash params;
                       downloadURL := p_downloadURL params;
                       sinfs := p_sinfs params;
                       iTunesMetadata := p_iTunesMetadata params;
                       status_of := pending; progress := 0; speed := "0 B/s";
                       error := None; createdAt := now; extra := ∅ |} in
        let st := saveTask st task in
        let st := addToAccountIndex st (p_accountHash params) (id task) in
        let '(st, task) := startDownload_begin st task in
        Ok (st, sanitize (task_object task) false None)
    end.

Definition getTask (st : store) (i hash : string) : option object :=
  match loadTask st i with
  | None => None
  | Some task =>
      if negb (String.eqb (accountHash task) hash) then None
      else
        let head := head_of st i in
        Some (sanitize (task_object task) (bool_decide (is_Some head)) head)
  end.

Definition listTasks (st : store) (accountHashes : list string) : list object :=
  hash ← accountHashes;
  i ← default [] (accounts st !! hash);
  match loadTask st i with
  | None => []
  | Some task =>
      let head := head_of st i in
      [sanitize (task_object task) (bool_decide (is_Some head)) head]
  end.

Definition getTaskPublic (st : store) (i : string) : option object :=
  match loadTask st i with
  | None => None
  | Some task =>
      if negb (bool_decide (status_of task = completed)) then None
      else
        let hasFile := bool_decide (is_Some (head_of st i)) in
        Some (<["hasFile" := JBool hasFile]>
                (<["software" := software_object (software task)]> ∅))
  end.

(** [deleteR2Files]: the stored key, the computed key and its [.new]
    sibling, as a set.  (A failing batch delete is logged and swallowed; the
    model takes the delete to succeed.) *)
Definition keys_to_delete (i hash : string) (r2key : option string)
    (task : option DownloadTask) : gset string :=
  (match truthy r2key with Some k => {[k]} | None => ∅ end)
  ∪ (match task with
     | Some t =>
         let computed := artifact_key hash (bundleID (software t)) i in
         {[computed; (computed ++ ".new")%string]}
     | None => ∅
     end).

Definition deleteR2Files (st : store) (i hash : string) (r2key : option string)
    (task : option DownloadTask) : store :=
  with_bucket st (filter (fun kv => kv.1 ∉ keys_to_delete i hash r2key task) (bucket st)).

(** What [deleteTask] and [purgeTask] share. *)
Definition purgeTask (st : store) (i hash : string) (r2key : option string)
    (task : option DownloadTask) : store :=
  let st := with_runs st (delete i (runs st)) in
  let st := deleteR2Files st i hash r2key task in
  let st := with_tasks st (delete i (tasks st)) in
  let st := with_r2keys st (delete i (r2keys st)) in
  removeFromAccountIndex st hash i.

Definition deleteTask (st : store) (i hash : string) : store * bool :=
  match loadTask st i with
  | None => (st, false)
  | Some task =>
      if negb (String.eqb (accountHash task) hash) then (st, false)
      else (purgeTask st i hash (r2keys st !! i) (Some task), true)
  end.

Definition set_status (task : DownloadTask) (s : status) : DownloadTask :=
  {| id := id task; software := software task; accountHash := accountHash task;
     downloadURL := downloadURL task; sinfs := sinfs task;
     iTunesMetadata := iTunesMetadata task;
     status_of := s; progress := progress task; speed := speed task;
     error := error task; createdAt := createdAt task; extra := extra task |}.

Definition pauseTask (st : store) (i hash : string) : store * bool :=
  match loadTask st i with
  | None => (st, false)
  | Some task =>
      if negb (String.eqb (accountHash task) hash) then (st, false)
      else if negb (bool_decide (status_of task = downloading)) then (st, false)
      else (saveTask (with_runs st (delete i (runs st))) (set_status task paused), true)
  end.

Definition resumeTask (st : store) (i hash : string) : store * bool :=
  match loadTask st i with
  | None => (st, false)
  | Some task =>
      if negb (String.eqb (accountHash task) hash) then (st, false)
      else if negb (bool_decide (status_of task = paused)) then (st, false)
      else ((startDownload_begin st task).1, true)
  end.

Definition getR2KeyPublic (st : store) (i : string) : option string :=
  match loadTask st i with
  | None => None
  | Some task =>
      if negb (bool_decide (status_of task = completed)) then None
      else r2keys st !! i
  end.

(** ** The download pipeline, as it acts on the store

    A run holds the task object it was started with ([runs]); each
    transition below is what [startDownload] does to that object and to
    storage between two suspensions.  A run that finds its signal aborted
    returns without writing; [pauseTask], [deleteTask] and [purgeTask]
    abort and forget the run in one step. *)

(** The throttled progress record of [streamToR2]. *)
Definition on_progress (st : store) (i speed' : string) (progress' : Z) : store :=
  match runs st !! i with
  | None => st
  | Some t =>
      let t' := {| id := id t; software := software t; accountHash := accountHash t;
                   downloadURL := downloadURL t; sinfs := sinfs t;
                   iTunesMetadata := iTunesMetadata t;
                   status_of := status_of t; progress := progress'; speed := speed';
                   error := error t; createdAt := createdAt t; extra := extra t |} in
      saveTask (with_runs st (<[i := t']> (runs st))) t'
  end.

(** [task.sinfs.length > 0 || task.iTunesMetadata] *)
Definition needs_injection (t : DownloadTask) : bool :=
  negb (bool_decide (sinfs t = [])) || bool_decide (is_Some (truthy (iTunesMetadata t))).

(** [task.status = 'injecting'; task.progress = 100; await this.saveTask(task)] *)
Definition on_injecting (st : store) (i : string) : store :=
  match runs st !! i with
  | None => st
  | Some t =>
      if needs_injection t then
        let t' := {| id := id t; software := software t; accountHash := accountHash t;
                     downloadURL := downloadURL t; sinfs := sinfs t;
                     iTunesMetadata := iTunesMetadata t;
                     status_of := injecting; progress := 100; speed := speed t;
                     error := error t; createdAt := createdAt t; extra := extra t |} in
        saveTask (with_runs st (<[i := t']> (runs st))) t'
      else st
  end.

(** The completion transition: the secrets are cleared, the record is saved
    and [r2key:<id>] is written; the controller is dropped. *)
Definition on_complete (st : store) (i : string) : store :=
  match runs st !! i with
  | None => st
  | Some t =>
      let r2key := artifact_key (accountHash t) (bundleID (software t)) (id t) in
      let t' := {| id := id t; software := software t; accountHash := accountHash t;
                   downloadURL := ""; sinfs := [];
                   iTunesMetadata := None;
                   status_of := completed; progress := 100; speed := speed t;
                   error := error t; createdAt := createdAt t; extra := extra t |} in
      let st := saveTask st t' in
      let st := with_r2keys st (<[id t := r2key]> (r2keys st)) in
      with_runs st (delete (id t) (runs st))
  end.

(** The [catch] block on an error that is not an abort. *)
Definition on_fail (st : store) (i message : string) : store :=
  match runs st !! i with
  | None => st
  | Some t =>
      let st := with_runs st (delete (id t) (runs st)) in
      let t' := {| id := id t; software := software t; accountHash := accountHash t;
                   downloadURL := downloadURL t; sinfs := sinfs t;
                   iTunesMetadata := iTunesMetadata t;
                   status_of := failed; progress := progress t; speed := speed t;
                   error := Some message; createdAt := createdAt t; extra := extra t |} in
      saveTask st t'
  end.

(** ** The janitor *)

(** A listing of durable storage comes in ascending order of the keys. *)
Fixpoint insert_key {V} (x : string * V) (l : list (string * V)) : list (string * V) :=
  match l with
  | [] => [x]
  | y :: rest =>
      if String.ltb x.1 y.1 then x :: y :: rest else y :: insert_key x rest
  end.

Definition storage_list {V} (m : gmap string V) : list (string * V) :=
  foldr insert_key [] (map_to_list m).

Record entry : Type := mkEntry {
  e_id : string;
  e_task : DownloadTask;
  e_r2key : option string
}.

(** The working state of [cleanupExpired].  [purgedByAge] and
    [purgedBySize] record, for the statements below, which entries each
    phase purged, the second with the running total before the purge. *)
Record janitor : Type := mkJanitor {
  j_store : store;
  allTasks : list entry;
  sizeMap : gmap string Z;
  totalSize : Z;
  deletedByAge : Z;
  deletedBySize : Z;
  purgedByAge : list entry;
  purgedBySize : list (entry * Z)
}.

Definition sum_sizes (m : gmap string Z) : Z :=
  map_fold (fun _ size acc => acc + size) 0 m.

(** "Collect all tasks" and "Scan R2 upfront". *)
Definition collect (st : store) : janitor :=
  {| j_store := st;
     allTasks := map (fun kv => {| e_id := kv.1; e_task := kv.2; e_r2key := r2keys st !! kv.1 |})
                     (storage_list (tasks st));
     sizeMap := bucket st;
     totalSize := sum_sizes (bucket st);
     deletedByAge := 0;
     deletedBySize := 0;
     purgedByAge := [];
     purgedBySize := [] |}.

(** [entry.r2key ? (sizeMap.get(entry.r2key) ?? 0) : 0] *)
Definition entry_size (sizes : gmap string Z) (e : entry) : Z :=
  match truthy (e_r2key e) with
  | Some k => default 0 (sizes !! k)
  | None => 0
  end.

(** What both phases do to one entry: purge, forget its size, lower the
    total. *)
Definition purge_entry (j : janitor) (e : entry) : store * gmap string Z * Z :=
  let size := entry_size (sizeMap j) e in
  let st := purgeTask (j_store j) (e_id e) (accountHash (e_task e)) (e_r2key e)
              (Some (e_task e)) in
  let sizes := match truthy (e_r2key e) with
               | Some k => delete k (sizeMap j)
               | None => sizeMap j
               end in
  (st, sizes, totalSize j - size).

(** Phase 1, one turn of the loop over the copy of [allTasks]; a purged
    entry is spliced out of [allTasks]. *)
Definition age_step (cutoff : Z) (j : janitor) (e : entry) : janitor :=
  if createdAt (e_task e) <? cutoff then
    let '(st, sizes, total) := purge_entry j e in
    {| j_store := st;
       allTasks := filter (fun x => e_id x ≠ e_id e) (allTasks j);
       sizeMap := sizes; totalSize := total;
       deletedByAge := deletedByAge j + 1; deletedBySize := deletedBySize j;
       purgedByAge := purgedByAge j ++ [e]; purgedBySize := purgedBySize j |}
  else j.

Definition phase1 (days now : Z) (j : janitor) : janitor :=
  if days >? 0 then
    let cutoff := now - days * 24 * 60 * 60 * 1000 in
    fold_left (age_step cutoff) (allTasks j) j
  else j.

(** Phase 2: the loop over the sorted entries, with its [break]. *)
Fixpoint quota_loop (maxBytes : Z) (entries : list entry) (j : janitor) : janitor :=
  match entries with
  | [] => j
  | e :: rest =>
      if totalSize j <=? maxBytes then j
      else
        let '(st, sizes, total) := purge_entry j e in
        quota_loop maxBytes rest
          {| j_store := st; allTasks := allTasks j;
             sizeMap := sizes; totalSize := total;
             deletedByAge := deletedByAge j; deletedBySize := deletedBySize j + 1;
             purgedByAge := purgedByAge j;
             purgedBySize := purgedBySize j ++ [(e, totalSize j)] |}
  end.

Definition by_createdAt (e : entry) : Z := createdAt (e_task e).

Definition phase2 (maxMB : Z) (j : janitor) : janitor :=
  if maxMB >? 0 then
    let maxBytes := maxMB * 1024 * 1024 in
    if totalSize j >? maxBytes then
      let sorted := sort_by by_createdAt (allTasks j) in
      quota_loop maxBytes sorted
        {| j_store := j_store j; allTasks := sorted;
           sizeMap := sizeMap j; totalSize := totalSize j;
           deletedByAge := deletedByAge j; deletedBySize := deletedBySize j;
           purgedByAge := purgedByAge j; purgedBySize := purgedBySize j |}
    else j
  else j.

(** Phase 3: every listed blob that no [r2key:*] record names. *)
Definition knownR2Keys (st : store) : gset string :=
  list_to_set (map snd (map_to_list (r2keys st))).

Definition orphans (j : janitor) : gmap string Z :=
  filter (fun kv => kv.1 ∉ knownR2Keys (j_store j)) (sizeMap j).

Record cleanup_result : Type := mkResult {
  r_deletedByAge : Z;
  r_deletedBySize : Z;
  r_deletedOrphaned : Z;
  r_totalSize : Z        (* in octets; the caller reports it in MiB *)
}.

Definition phase3 (j : janitor) : store * cleanup_result :=
  let orphanKeys := orphans j in
  let st := with_bucket (j_store j)
              (filter (fun kv => orphanKeys !! kv.1 = None) (bucket (j_store j))) in
  (st, {| r_deletedByAge := deletedByAge j;
          r_deletedBySize := deletedBySize j;
          r_deletedOrphaned := Z.of_nat (size orphanKeys);
          r_totalSize := totalSize j - sum_sizes orphanKeys |}).

Definition cleanupExpired (st : store) (days maxMB now : Z) : store * cleanup_result :=
  phase3 (phase2 maxMB (phase1 days now (collect st))).

(** ** Reachable stores

    The store is a single-writer actor: an RPC, a transition of a running
    download, a write of the pipeline to the blob store and a run of the
    janitor each happen in one step.  [crypto.randomUUID()] returns an id
    that is not in use. *)
Inductive step : store -> store -> Prop :=
| step_create st params uuid now st' out :
    tasks st !! uuid = None ->
    createTask st params uuid now = Ok (st', out) ->
    step st st'
| step_delete st i hash : step st (deleteTask st i hash).1
| step_pause st i hash : step st (pauseTask st i hash).1
| step_resume st i hash : step st (resumeTask st i hash).1
| step_progress st i speed' progress' : step st (on_progress st i speed' progress')
| step_injecting st i : step st (on_injecting st i)
| step_complete st i : step st (on_complete st i)
| step_fail st i message : step st (on_fail st i message)
| step_blob_put st key size : step st (with_bucket st (<[key := size]> (bucket st)))
| step_blob_delete st key : step st (with_bucket st (delete key (bucket st)))
| step_cleanup st days maxMB now : step st (cleanupExpired st days maxMB now).1.

Inductive reachable : store -> Prop :=
| reachable_empty : reachable empty_store
| reachable_step st st' : reachable st -> step st st' -> reachable st'.

End WithUrl.

(** The record [createTask] builds before the download starts. *)
Definition new_task (params : CreateTaskParams) (uuid : string) (now : Z) : DownloadTask :=
  {| id := uuid; software := p_software params; accountHash := p_accountHash params;
     downloadURL := p_downloadURL params; sinfs := p_sinfs params;
     iTunesMetadata := p_iTunesMetadata params;
     status_of := pending; progress := 0; speed := "0 B/s";
     error := None; createdAt := now; extra := ∅ |}.

(** ** Invariants of the store *)

(** [r2key:<id>] exists exactly when [task:<id>] exists and is completed. *)
Definition completed_iff_keyed (st : store) : Prop :=
  forall i, is_Some (r2keys st !! i) <->
            exists t, tasks st !! i = Some t /\ status_of t = completed.

(** The stored tasks of one account, bundle and version that have not
    failed. *)
Definition live_duplicate (h b v : string) (t : DownloadTask) : Prop :=
  accountHash t = h /\ bundleID (software t) = b /\ version (software t) = v
  /\ status_of t <> failed.

(** At most one of them: any two are the same record. *)
Definition deduplicated (st : store) : Prop :=
  forall h b v i1 i2 t1 t2,
    tasks st !! i1 = Some t1 -> tasks st !! i2 = Some t2 ->
    live_duplicate h b v t1 -> live_duplicate h b v t2 -> i1 = i2.

(** Records sit under their own id, and every record is in the index of its
    account. *)
Definition indexed (st : store) : Prop :=
  forall i t, tasks st !! i = Some t ->
    id t = i /\ i ∈ default [] (accounts st !! accountHash t).

(** A run holds the object of a stored task that is downloading or
    injecting, and agrees with the record on what identifies the task. *)
Definition runs_live (st : store) : Prop :=
  forall i t, runs st !! i = Some t ->
    id t = i
    /\ exists t', tasks st !! i = Some t'
         /\ (status_of t' = downloading \/ status_of t' = injecting)
         /\ status_of t = status_of t'
         /\ accountHash t = accountHash t' /\ software t = software t'.

Definition store_inv (st : store) : Prop :=
  completed_iff_keyed st /\ deduplicated st /\ indexed st /\ runs_live st.

(** ** Sample stores *)

Definition sample_url (url : string) : option (string * string) :=
  Some ("https:", "cdn.apple.com")%string.

Definition sample_params : CreateTaskParams :=
  {| p_software := mkSoftware "com.x.y" "1.2" "X" [];
     p_accountHash := "aaaaaaaa";
     p_downloadURL := "https://cdn.apple.com/x.ipa";
     p_sinfs := [mkSinf 0 "U0lORg=="];
     p_iTunesMetadata := None |}.

(** After [createTask], and after the download of that task completed. *)
Definition created_store : store :=
  match createTask sample_url empty_store sample_params "id1" 1000 with
  | Ok (st, _) => st
  | Err _ => empty_store
  end.

Definition created_out : object :=
  match createTask sample_url empty_store sample_params "id1" 1000 with
  | Ok (_, out) => out
  | Err _ => ∅
  end.

Definition completed_store : store :=
  on_complete (on_injecting created_store "id1") "id1".

(** The size-cap scenario: ten completed tasks of 10 MiB each, the task
    [t9] the oldest, and one blob that no record names. *)
Definition ten_ids : list string :=
  ["t0"; "t1"; "t2"; "t3"; "t4"; "t5"; "t6"; "t7"; "t8"; "t9"].

Definition ten_task (n : Z) (i : string) : DownloadTask :=
  {| id := i; software := mkSoftware "com.x.y" "1.2" "X" []; accountHash := "aaaaaaaa";
     downloadURL := ""; sinfs := []; iTunesMetadata := None; status_of := completed;
     progress := 100; speed := ""; error := None; createdAt := n; extra := ∅ |}.

Definition ten_tasks : store :=
  {| tasks := list_to_map (imap (fun k i => (i, ten_task (100 - Z.of_nat k) i)) ten_ids);
     r2keys := list_to_map (map (fun i => (i, artifact_key "aaaaaaaa" "com.x.y" i)) ten_ids);
     accounts := {[ "aaaaaaaa" := ten_ids ]};
     runs := ∅;
     bucket := <[ "stray" := 7 ]> (list_to_map
                 (map (fun i => (artifact_key "aaaaaaaa" "com.x.y" i, 10 * 1024 * 1024)) ten_ids)) |}.

(** The blobs still in the store are all in the size map. *)
Definition listed (j : janitor) : Prop :=
  forall k, is_Some (bucket (j_store j) !! k) -> is_Some (sizeMap j !! k).

End Store.

(** * do/DownloadManager.ts: SINF injection *)

Module Inject.
Import Zip Store.

Inductive inject_error : Type :=
| ObjectNotFound        (* 'R2 object not found for SINF injection' *)
| ZipFailure (e : zip_error)
| NoBundleName          (* 'Could not find .app bundle name' *)
| NoPlist               (* 'Could not read manifest or info plist' *)
| NoExecutable          (* 'Could not read CFBundleExecutable' *)
| UploadFailed          (* [uploadPart] or [complete] rejected *)
| NewObjectMissing.     (* 'R2 rename step failed: new object missing' *)

Definition lift {A} (r : res A) : result inject_error A :=
  match r with
  | Ok a => Ok a
  | Err e => Err (ZipFailure e)
  end.

(** ** The blob store *)

(** The calls that change the bucket, in the order they are made. *)
Inductive r2_write : Type :=
| CreateMultipartUpload (key : string)
| UploadPart (key : string) (partNumber : Z) (body : bytes)
| CompleteUpload (key : string) (partNumbers : list Z)
| AbortUpload (key : string)
| Put (key : string) (body : bytes)
| Delete (keys : list string).

Record world : Type := mkWorld {
  objects : gmap string bytes;
  writes : list r2_write
}.

Definition wrote (w : world) (op : r2_write) : world :=
  {| objects := objects w; writes := writes w ++ [op] |}.

Definition stored (w : world) (key : string) (body : bytes) : world :=
  {| objects := <[key := body]> (objects w); writes := writes w |}.

Definition removed (w : world) (key : string) : world :=
  {| objects := delete key (objects w); writes := writes w |}.

(** [IPA_BUCKET.head(key)], as the size of the object. *)
Definition head_size (w : world) (key : string) : option Z :=
  len <$> objects w !! key.

(** The [readRange] closure of [injectSinf]: a ranged [get] of [r2key]. *)
Definition readRange (w : world) (r2key : string) : ZipReadRange :=
  fun start end_ =>
    match objects w !! r2key with
    | Some body => Ok (subarray body start (start + (end_ - start)))
    | None => Err ReadFailed
    end.

(** ** Property lists, as the two parsers return them *)

Inductive plist_value : Type :=
| PString (s : string)
| PArray (items : list plist_value)
| PDict (fields : list (string * plist_value))
| POther.

(** [obj[key]] *)
Definition field (key : string) (v : plist_value) : option plist_value :=
  match v with
  | PDict fields => snd <$> List.find (fun kv => String.eqb kv.1 key) fields
  | _ => None
  end.

(** ** File names *)

(** [name.includes(part)] *)
Definition includes (part name : string) : bool :=
  bool_decide (is_Some (String.index 0 part name)).

(** [/^Payload\/([^/]+)\.app\//], the first group: the path starts with
    [Payload/], and its second segment ends in [.app] after at least one
    character. *)
Definition match_bundle (name : string) : option string :=
  if String.prefix "Payload/" name then
    let rest := String.substring 8 (String.length name - 8) name in
    match String.index 0 "/" rest with
    | Some n =>
        let stem := (n - 4)%nat in
        if bool_decide (5 <= n)%nat && String.eqb (String.substring stem 4 rest) ".app"
        then Some (String.substring 0 stem rest)
        else None
    | None => None
    end
  else None.

Definition COPY_CHUNK : Z := 50 * 1024 * 1024.

Section WithPlatform.

Variable decode : bytes -> string.                  (* [new TextDecoder().decode] *)
Variable encode : string -> bytes.                  (* [new TextEncoder().encode] *)
Variable inflate : bytes -> option bytes.           (* [DecompressionStream('deflate-raw')] *)
Variable base64 : string -> bytes.                  (* [Buffer.from(s, 'base64')] *)
Variable bplist_parse : bytes -> option (list plist_value).  (* [bplistParser.parseBuffer]; [None] when it throws *)
Variable plist_parse : string -> option plist_value.         (* [plist.parse]; [None] when it throws *)
Variable js_string : plist_value -> string.         (* what a template literal makes of a value *)
(** [Buffer.from(bplistCreator(plist.parse(xml.toString('utf-8'))))];
    [None] when it throws. *)
Variable bplist_of_xml : bytes -> option bytes.
(** [upload.uploadPart(partNumber, body)] resolves. *)
Variable upload_ok : Z -> bool.

Definition array_field (key : string) (v : plist_value) : option (list plist_value) :=
  match field key v with
  | Some (PArray items) => Some items
  | _ => None
  end.

Definition string_field (key : string) (v : plist_value) : option string :=
  match field key v with
  | Some (PString s) => Some s
  | _ => None
  end.

(** The two attempts of both plist readers: binary first, XML second. *)
Definition from_plists {A} (read : plist_value -> option A) (data : bytes) : option A :=
  let binary :=
    match bplist_parse data with
    | Some (obj :: _) => read obj
    | _ => None
    end in
  match binary with
  | Some a => Some a
  | None =>
      match plist_parse (decode data) with
      | Some parsed => read parsed
      | None => None
      end
  end.

Definition parseSinfPaths (data : bytes) : option (list plist_value) :=
  from_plists (array_field "SinfPaths") data.

Definition parseExecutableName (data : bytes) : option string :=
  from_plists (string_field "CFBundleExecutable") data.

Definition template (v : plist_value) : string :=
  match v with
  | PString s => s
  | other => js_string other
  end.

(** "Find bundle name" *)
Definition bundle_of (e : CdEntry) : option string :=
  match match_bundle (Zip.name e) with
  | Some m => if includes "/Watch/" (Zip.name e) then None else Some m
  | None => None
  end.

Definition find_bundle (entries : list CdEntry) : option string :=
  head (omap bundle_of entries).

Definition find_entry (entries : list CdEntry) (path : string) : option CdEntry :=
  List.find (fun e => String.eqb (Zip.name e) path) entries.

Definition sinf_data (s : Sinf) : bytes := base64 (sinf s).

Definition metadata_file (task : DownloadTask) : list AppendFile :=
  match truthy (iTunesMetadata task) with
  | Some m =>
      let xmlBuffer := base64 m in
      [mkAppendFile "iTunesMetadata.plist" (default xmlBuffer (bplist_of_xml xmlBuffer))]
  | None => []
  end.

Definition buildFilesToAppend (task : DownloadTask) (entries : list CdEntry)
    (readRange : ZipReadRange) : result inject_error (list AppendFile) :=
  match find_bundle entries with
  | None => Err NoBundleName
  | Some bundleName =>
      let app := ("Payload/" ++ bundleName ++ ".app/")%string in
      sinfPaths ←
        match find_entry entries (app ++ "SC_Info/Manifest.plist")%string with
        | Some manifestEntry =>
            data ← lift (readEntryData inflate manifestEntry readRange);
            Ok (parseSinfPaths data)
        | None => Ok None
        end;
      files ←
        match sinfPaths with
        | Some paths =>
            Ok (zip_with (fun sinfPath s =>
                            mkAppendFile (app ++ template sinfPath)%string (sinf_data s))
                  paths (sinfs task))
        | None =>
            match List.find (fun e => String.eqb (Zip.name e) (app ++ "Info.plist")%string
                                      && negb (includes "/Watch/" (Zip.name e))) entries with
            | None => Err NoPlist
            | Some infoEntry =>
                infoData ← lift (readEntryData inflate infoEntry readRange);
                match parseExecutableName infoData with
                | None => Err NoExecutable
                | Some ""%string => Err NoExecutable
                | Some execName =>
                    Ok (match sinfs task with
                        | s :: _ =>
                            [mkAppendFile (app ++ "SC_Info/" ++ execName ++ ".sinf")%string
                               (sinf_data s)]
                        | [] => []
                        end)
                end
            end
        end;
      Ok (files ++ metadata_file task)
  end.

(** ** Composing the new archive *)

(** The offsets [for (let offset = 0; offset < cdOffset; offset += COPY_CHUNK)]
    visits. *)
Definition chunk_offsets (cdOffset : Z) : list Z :=
  (fun k => k * COPY_CHUNK) <$> seqZ 0 ((cdOffset + COPY_CHUNK - 1) / COPY_CHUNK).

Record copy_state : Type := mkCopy {
  c_world : world;
  parts : list Z;            (* the part numbers pushed to [parts] *)
  uploaded : list bytes;     (* their bodies, what [complete] assembles *)
  partNum : Z;
  tailAppended : bool
}.

(** [upload.uploadPart(partNum++, body); parts.push(part)] *)
Definition uploadPart (newKey : string) (c : copy_state) (body : bytes)
  : result (inject_error * world) copy_state :=
  if upload_ok (partNum c) then
    Ok {| c_world := wrote (c_world c) (UploadPart newKey (partNum c) body);
          parts := parts c ++ [partNum c];
          uploaded := uploaded c ++ [body];
          partNum := partNum c + 1;
          tailAppended := tailAppended c |}
  else Err (UploadFailed, c_world c).

Definition copy_chunk (r2key newKey : string) (cdOffset : Z) (tail : bytes)
    (c : copy_state) (offset : Z) : result (inject_error * world) copy_state :=
  let length := Z.min COPY_CHUNK (cdOffset - offset) in
  match readRange (c_world c) r2key offset (offset + length) with
  | Err e => Err (ZipFailure e, c_world c)
  | Ok chunk =>
      let isLastChunk := offset + length >=? cdOffset in
      if isLastChunk then
        c' ← uploadPart newKey c (chunk ++ tail);
        Ok {| c_world := c_world c'; parts := parts c'; uploaded := uploaded c';
              partNum := partNum c'; tailAppended := true |}
      else uploadPart newKey c chunk
  end.

Fixpoint copy_loop (r2key newKey : string) (cdOffset : Z) (tail : bytes)
    (offsets : list Z) (c : copy_state) : result (inject_error * world) copy_state :=
  match offsets with
  | [] => Ok c
  | offset :: rest =>
      c' ← copy_chunk r2key newKey cdOffset tail c offset;
      copy_loop r2key newKey cdOffset tail rest c'
  end.

(** The body of the [try]. *)
Definition compose (r2key newKey : string) (cdOffset : Z) (tail : bytes) (w : world)
  : result (inject_error * world) world :=
  let c := {| c_world := w; parts := []; uploaded := []; partNum := 1;
              tailAppended := false |} in
  c ← copy_loop r2key newKey cdOffset tail (chunk_offsets cdOffset) c;
  c ← (if tailAppended c then Ok c else uploadPart newKey c tail);
  Ok (stored (wrote (c_world c) (CompleteUpload newKey (parts c)))
        newKey (mjoin (uploaded c))).

(** "Atomic swap: overwrite original with new, then delete temp key" *)
Definition swap (r2key newKey : string) (w : world) : result inject_error unit * world :=
  match objects w !! newKey with
  | None => (Err NewObjectMissing, w)
  | Some body =>
      let w := stored (wrote w (Put r2key body)) r2key body in
      (Ok (), removed (wrote w (Delete [newKey])) newKey)
  end.

(** What [injectSinf] has in hand when it reaches
    [if (filesToAppend.length === 0) return]. *)
Record prepared : Type := mkPrepared {
  p_archiveSize : Z;
  p_eocd : Eocd;
  p_entries : list CdEntry;
  filesToAppend : list AppendFile
}.

Definition prepare (w : world) (task : DownloadTask) (r2key : string)
  : result inject_error prepared :=
  match head_size w r2key with
  | None => Err ObjectNotFound
  | Some archiveSize =>
      let tailSize := Z.min (65536 + 22) archiveSize in
      tailBuf ← lift (readRange w r2key (archiveSize - tailSize) archiveSize);
      eocd ← lift (findEocd tailBuf archiveSize);
      cd ← lift (readRange w r2key (cdOffset eocd) (cdOffset eocd + cdSize eocd));
      entries ← lift (parseCentralDirectory decode cd);
      files ← buildFilesToAppend task entries (readRange w r2key);
      Ok {| p_archiveSize := archiveSize; p_eocd := eocd; p_entries := entries;
            filesToAppend := files |}
  end.

Definition injectSinf (w : world) (task : DownloadTask) (r2key : string)
  : result inject_error unit * world :=
  match prepare w task r2key with
  | Err e => (Err e, w)
  | Ok p =>
      if decide (length (filesToAppend p) = 0%nat) then (Ok (), w)
      else
        match appendToZipTail decode encode (p_archiveSize p) (readRange w r2key)
                (filesToAppend p) (Some (p_eocd p, p_entries p)) with
        | Err e => (Err (ZipFailure e), w)
        | Ok (cdOffset, tail) =>
            let newKey := (r2key ++ ".new")%string in
            let w := wrote w (CreateMultipartUpload newKey) in
            match compose r2key newKey cdOffset tail w with
            | Err (e, w) => (Err e, wrote w (AbortUpload newKey))
            | Ok w => swap r2key newKey w
            end
        end
  end.

End WithPlatform.

(** ** Samples *)

(** A toy platform: no compression, base64 as the identity on ASCII, a
    binary-plist reader that sees an empty [SinfPaths] array in a buffer
    that starts with ["0"] and one path in a buffer that starts with ["1"],
    uploads that succeed. *)
Definition toy_bplist_parse (b : bytes) : option (list plist_value) :=
  match b with
  | x :: _ =>
      if Z.eqb (Z_of_byte x) 48 then Some [PDict [("SinfPaths"%string, PArray [])]]
      else if Z.eqb (Z_of_byte x) 49 then
        Some [PDict [("SinfPaths"%string, PArray [PString "SC_Info/X.sinf"])]]
      else None
  | [] => None
  end.

Definition toy_inflate (b : bytes) : option bytes := None.
Definition toy_plist_parse (s : string) : option plist_value := None.
Definition toy_js_string (v : plist_value) : string := "".
Definition toy_bplist_of_xml (b : bytes) : option bytes := None.
Definition toy_upload_ok (n : Z) : bool := true.

Definition toy_prepare : world -> DownloadTask -> string -> result inject_error prepared :=
  prepare ascii_decode toy_inflate ascii_encode toy_bplist_parse toy_plist_parse
    toy_js_string toy_bplist_of_xml.

Definition toy_injectSinf : world -> DownloadTask -> string -> result inject_error unit * world :=
  injectSinf ascii_decode ascii_encode toy_inflate ascii_encode toy_bplist_parse
    toy_plist_parse toy_js_string toy_bplist_of_xml toy_upload_ok.

(** An archive whose only file is the manifest of [Payload/X.app], with the
    given content. *)
Definition manifest_ipa (content : string) : bytes :=
  match appendToZipTail ascii_decode ascii_encode (len empty_zip) (read_archive empty_zip)
          [mkAppendFile "Payload/X.app/SC_Info/Manifest.plist" (ascii_encode content)] None with
  | Ok (split, tail) => rewritten empty_zip split tail
  | Err _ => []
  end.

Definition sample_task : DownloadTask :=
  {| id := "id1"; software := mkSoftware "com.x.y" "1.2" "X" []; accountHash := "aaaaaaaa";
     downloadURL := "https://cdn.apple.com/x.ipa"; sinfs := [mkSinf 0 "SINF"];
     iTunesMetadata := None; status_of := injecting;
     progress := 100; speed := "0 B/s"; error := None; createdAt := 0; extra := ∅ |}.

Definition sample_world (content : string) : world :=
  {| objects := {[ "k"%string := manifest_ipa content ]}; writes := [] |}.

End Inject.
(* ===================================================================== *)
(** * Basic facts on arrays and octets *)
(* ===================================================================== *)

Lemma len_app {A} (l k : list A) : len (l ++ k) = len l + len k.
Proof. unfold len. rewrite length_app. lia. Qed.

Lemma len_nonneg {A} (l : list A) : 0 <= len l.
Proof. unfold len. lia. Qed.

Lemma len_nil {A} : len (@nil A) = 0.
Proof. reflexivity. Qed.

Lemma len_cons {A} (x : A) (l : list A) : len (x :: l) = 1 + len l.
Proof. unfold len. simpl length. lia. Qed.

Lemma Z_of_byte_range b : 0 <= Z_of_byte b < 256.
Proof.
  unfold Z_of_byte. pose proof (Byte.to_N_bounded b) as H.
  lia.
Qed.

Lemma Z_of_byte_of_Z v : Z_of_byte (byte_of_Z v) = v mod 256.
Proof.
  unfold Z_of_byte, byte_of_Z.
  assert (Hr : 0 <= v mod 256 < 256) by (apply Z.mod_pos_bound; lia).
  destruct (Byte.of_N (Z.to_N (v mod 256))) as [b|] eqn:E.
  - apply Byte.to_of_N in E. simpl. rewrite E. lia.
  - apply Byte.of_N_None_iff in E. lia.
Qed.

(** ** The stable sort *)

Lemma insert_by_last {A} (key : A -> Z) x acc :
  Forall (fun y => key y <= key x) acc -> insert_by key x acc = acc ++ [x].
Proof.
  induction 1 as [|y acc Hy _ IH]; [done|]. cbn [insert_by].
  destruct (Z.ltb_spec (key x) (key y)); [lia|]. by rewrite IH.
Qed.

Lemma insert_by_perm {A} (key : A -> Z) x l : insert_by key x l ≡ₚ x :: l.
Proof.
  induction l as [|y l IH]; [done|]. cbn [insert_by].
  destruct (key x <? key y); [done|]. rewrite IH. apply Permutation_swap.
Qed.

Lemma sort_by_perm {A} (key : A -> Z) l : sort_by key l ≡ₚ l.
Proof.
  unfold sort_by.
  assert (H : forall acc, fold_left (fun acc x => insert_by key x acc) l acc ≡ₚ acc ++ l).
  { induction l as [|x l IH]; intros acc; cbn [fold_left]; [by rewrite app_nil_r|].
    rewrite IH, insert_by_perm. by rewrite <- Permutation_middle. }
  apply (H []).
Qed.

Lemma insert_by_ascending {A} (key : A -> Z) x l :
  ascending key l -> ascending key (insert_by key x l).
Proof.
  unfold ascending. induction 1 as [|y l Hs IH Hhd]; cbn [insert_by].
  - repeat constructor.
  - destruct (Z.ltb_spec (key x) (key y)).
    + constructor; [by constructor|]. constructor. lia.
    + constructor; [done|].
      destruct l as [|z l]; cbn [insert_by]; [constructor; lia|].
      destruct (Z.ltb_spec (key x) (key z)); constructor; [lia|].
      by inversion Hhd.
Qed.

Lemma sort_by_ascending {A} (key : A -> Z) l : ascending key (sort_by key l).
Proof.
  unfold sort_by.
  assert (H : forall acc, ascending key acc ->
            ascending key (fold_left (fun acc x => insert_by key x acc) l acc)).
  { induction l as [|x l IH]; intros acc Hacc; cbn [fold_left]; [done|].
    by apply IH, insert_by_ascending. }
  apply H. constructor.
Qed.

(* ===================================================================== *)
(** * Properties of the ZIP tail builder *)
(* ===================================================================== *)

Module ZipFacts.
Import Zip.

Lemma u16_in_bounds buf off :
  off + 2 <= len buf ->
  u16 buf off = Ok (Z.lor (at_ buf off) (Z.shiftl (at_ buf (off + 1)) 8)).
Proof. intros H. unfold u16. destruct (Z.gtb_spec (off + 2) (len buf)); [lia | done]. Qed.

Lemma u32_in_bounds buf off :
  off + 4 <= len buf ->
  u32 buf off =
    Ok (toUint32
          (Z.lor (Z.lor (Z.lor (at_ buf off) (Z.shiftl (at_ buf (off + 1)) 8))
                        (Z.shiftl (at_ buf (off + 2)) 16))
                 (Z.shiftl (at_ buf (off + 3)) 24))).
Proof. intros H. unfold u32. destruct (Z.gtb_spec (off + 4) (len buf)); [lia | done]. Qed.

(** What one probe does at a position where a whole record fits. *)
Lemma probe_spec tail archiveSize i :
  i + 22 <= len tail ->
  probe tail archiveSize i =
    if is_candidate tail i then
      if zip64_sentinel tail i then Err Unsupported
      else Ok (Some (record_at tail archiveSize i))
    else Ok None.
Proof.
  intros Hi. unfold probe, is_candidate, zip64_sentinel, record_at.
  rewrite (u32_in_bounds tail i), (u16_in_bounds tail (i + 8)),
    (u16_in_bounds tail (i + 10)), (u32_in_bounds tail (i + 12)),
    (u32_in_bounds tail (i + 16)) by lia.
  cbn [mbind result_mbind result_bind].
  destruct (Z.eqb _ SIG_EOCD); [|done]. cbn [andb negb].
  destruct (Z.eqb (Z.lor (at_ tail (i + 8)) _) _); cbn [negb]; [|done].
  destruct (_ || _); done.
Qed.

Lemma scan_no_candidate tail archiveSize n i :
  i + 22 <= len tail ->
  (forall j, i - Z.of_nat n < j <= i -> 0 <= j -> is_candidate tail j = false) ->
  scan tail archiveSize n i = Err NotAZip.
Proof.
  revert i. induction n as [|n IH]; intros i Hi Hno; [done|].
  cbn [scan]. destruct (Z.ltb_spec i 0) as [|Hpos]; [done|].
  rewrite probe_spec by lia. rewrite Hno by lia.
  cbn [mbind result_mbind result_bind].
  apply IH; [lia|]. intros j Hj Hj0. apply Hno; lia.
Qed.

Lemma scan_first_candidate tail archiveSize n i k :
  i + 22 <= len tail ->
  i - Z.of_nat n < k <= i -> 0 <= k ->
  is_candidate tail k = true ->
  (forall j, k < j <= i -> is_candidate tail j = false) ->
  scan tail archiveSize n i =
    if zip64_sentinel tail k then Err Unsupported
    else Ok (record_at tail archiveSize k).
Proof.
  revert i. induction n as [|n IH]; intros i Hi Hk Hk0 Hc Hno; [lia|].
  cbn [scan]. destruct (Z.ltb_spec i 0) as [|Hpos]; [lia|].
  rewrite probe_spec by lia.
  destruct (decide (k = i)) as [->|Hne].
  - rewrite Hc. cbn [mbind result_mbind result_bind]. by destruct (zip64_sentinel tail i).
  - rewrite Hno by lia. cbn [mbind result_mbind result_bind].
    apply IH; [lia|lia|done|done|]. intros j Hj. apply Hno; lia.
Qed.

(** The result of [findEocd], by the highest position of the scan that holds
    a candidate record. *)
Lemma findEocd_no_candidate tail archiveSize :
  (forall i, in_range tail i -> is_candidate tail i = false) ->
  findEocd tail archiveSize = Err NotAZip.
Proof.
  intros Hno. unfold findEocd. apply scan_no_candidate; [lia|].
  intros j Hj Hj0. apply Hno. unfold in_range. lia.
Qed.

Lemma findEocd_first_candidate tail archiveSize k :
  in_range tail k ->
  is_candidate tail k = true ->
  (forall j, k < j -> in_range tail j -> is_candidate tail j = false) ->
  findEocd tail archiveSize =
    if zip64_sentinel tail k then Err Unsupported
    else Ok (record_at tail archiveSize k).
Proof.
  intros [Hk0 Hk] Hc Hno. unfold findEocd.
  apply scan_first_candidate; [lia|lia|done|done|].
  intros j Hj. apply Hno; [lia|]. unfold in_range. lia.
Qed.

(** ** Little-endian stores read back *)

Lemma testbit_255 n : 0 <= n -> Z.testbit 255 n = (n <? 8).
Proof.
  intros Hn. change 255 with (Z.ones 8).
  destruct (Z.ltb_spec n 8).
  - apply Z.ones_spec_low. lia.
  - apply Z.ones_spec_high. lia.
Qed.

(** The octet stored for the [k]-th byte of [v]. *)
Lemma stored_octet v k :
  0 <= k ->
  Z_of_byte (byte_of_Z (band (ushr v k) 0xff)) = Z.land (Z.shiftr (toUint32 v) k) 255.
Proof.
  intros Hk. rewrite Z_of_byte_of_Z. unfold band, ushr.
  assert (H: toUint32 (Z.shiftr (toUint32 v) k) = Z.shiftr (toUint32 v) k).
  { unfold toUint32. apply Z.mod_small.
    assert (0 <= v mod 2^32 < 2^32) by (apply Z.mod_pos_bound; lia).
    split. - apply Z.shiftr_nonneg. lia.
    - rewrite Z.shiftr_div_pow2 by lia.
      apply Z.le_lt_trans with (v mod 2^32); [|lia].
      assert (0 < 2^k) by (apply Z.pow_pos_nonneg; lia).
      apply Z.div_le_upper_bound; [done|]. nia. }
  rewrite H. change 256 with (2^8). rewrite <- Z.land_ones by lia.
  rewrite <- Z.land_assoc. reflexivity.
Qed.

Lemma stored_octet0 v :
  Z_of_byte (byte_of_Z (band v 0xff)) = Z.land (toUint32 v) 255.
Proof.
  rewrite Z_of_byte_of_Z. unfold band. change 256 with (2^8). rewrite <- Z.land_ones by lia.
  rewrite <- Z.land_assoc. reflexivity.
Qed.

Lemma le16_roundtrip x :
  Z.lor (Z.land x 255) (Z.shiftl (Z.land (Z.shiftr x 8) 255) 8) = x mod 2^16.
Proof.
  apply Z.bits_inj'. intros n Hn.
  rewrite Z.lor_spec, Z.land_spec, testbit_255 by lia.
  destruct (Z.ltb_spec n 16).
  - rewrite Z.mod_pow2_bits_low by lia.
    destruct (Z.ltb_spec n 8).
    + rewrite Z.shiftl_spec_low by lia. by rewrite andb_true_r, orb_false_r.
    + rewrite Z.shiftl_spec, Z.land_spec, Z.shiftr_spec, testbit_255 by lia.
      replace (n - 8 + 8) with n by lia.
      destruct (Z.ltb_spec (n - 8) 8); [|lia]. by rewrite andb_false_r, andb_true_r.
  - rewrite Z.mod_pow2_bits_high by lia.
    rewrite Z.shiftl_spec, Z.land_spec, testbit_255 by lia.
    destruct (Z.ltb_spec n 8); [lia|]. destruct (Z.ltb_spec (n-8) 8); [lia|].
    by rewrite !andb_false_r.
Qed.

Lemma le32_roundtrip x :
  Z.lor (Z.lor (Z.lor (Z.land x 255) (Z.shiftl (Z.land (Z.shiftr x 8) 255) 8))
           (Z.shiftl (Z.land (Z.shiftr x 16) 255) 16))
        (Z.shiftl (Z.land (Z.shiftr x 24) 255) 24) = x mod 2^32.
Proof.
  apply Z.bits_inj'. intros n Hn.
  rewrite !Z.lor_spec, Z.land_spec, testbit_255 by lia.
  assert (Hsh : forall k, 0 <= k -> Z.testbit (Z.shiftl (Z.land (Z.shiftr x k) 255) k) n
                     = Z.testbit x n && (k <=? n) && (n <? k + 8)).
  { intros k Hk. destruct (Z.leb_spec k n).
    - rewrite Z.shiftl_spec, Z.land_spec, Z.shiftr_spec, testbit_255 by lia.
      replace (n - k + k) with n by lia.
      destruct (Z.ltb_spec (n - k) 8), (Z.ltb_spec n (k + 8)); try lia; by rewrite ?andb_true_r.
    - rewrite Z.shiftl_spec_low by lia. by rewrite andb_false_r. }
  rewrite !Hsh by lia.
  destruct (Z.ltb_spec n 32).
  - rewrite Z.mod_pow2_bits_low by lia.
    destruct (Z.testbit x n); [|done]. cbn [andb].
    destruct (Z.ltb_spec n 8), (Z.leb_spec 8 n), (Z.ltb_spec n (8+8)), (Z.leb_spec 16 n),
      (Z.ltb_spec n (16+8)), (Z.leb_spec 24 n), (Z.ltb_spec n (24+8)); try lia; done.
  - rewrite Z.mod_pow2_bits_high by lia.
    destruct (Z.ltb_spec n 8), (Z.ltb_spec n (8+8)), 
      (Z.ltb_spec n (16+8)), (Z.ltb_spec n (24+8)); try lia; by rewrite ?andb_false_r.
Qed.

Lemma at_app_r (P E : bytes) k :
  0 <= k -> at_ (P ++ E) (len P + k) = at_ E k.
Proof.
  intros Hk. unfold at_, len.
  destruct (Z.ltb_spec (Z.of_nat (length P) + k) 0); [lia|].
  destruct (Z.ltb_spec k 0); [lia|].
  rewrite lookup_app_r by lia.
  replace (Z.to_nat (Z.of_nat (length P) + k) - length P)%nat with (Z.to_nat k) by lia.
  done.
Qed.

Lemma u16_app_r (P E : bytes) k :
  0 <= k -> k + 2 <= len E -> u16 (P ++ E) (len P + k) = u16 E k.
Proof.
  intros Hk Hb. rewrite !u16_in_bounds by (rewrite ?len_app; lia).
  replace (len P + k + 1) with (len P + (k + 1)) by lia.
  by rewrite !at_app_r by lia.
Qed.

Lemma u32_app_r (P E : bytes) k :
  0 <= k -> k + 4 <= len E -> u32 (P ++ E) (len P + k) = u32 E k.
Proof.
  intros Hk Hb. rewrite !u32_in_bounds by (rewrite ?len_app; lia).
  replace (len P + k + 1) with (len P + (k + 1)) by lia.
  replace (len P + k + 2) with (len P + (k + 2)) by lia.
  replace (len P + k + 3) with (len P + (k + 3)) by lia.
  by rewrite !at_app_r by lia.
Qed.

Lemma toUint32_idem v : toUint32 (toUint32 v) = toUint32 v.
Proof. unfold toUint32. apply Z.mod_mod. lia. Qed.

Lemma build_eocd_length n s o : length (build_eocd n s o) = 22%nat.
Proof. reflexivity. Qed.



Lemma build_eocd_eq n s o :
  build_eocd n s o =
    [lo SIG_EOCD; hi SIG_EOCD 8; hi SIG_EOCD 16; hi SIG_EOCD 24;
     lo 0; hi 0 8; lo 0; hi 0 8;
     lo n; hi n 8; lo n; hi n 8;
     lo s; hi s 8; hi s 16; hi s 24;
     lo o; hi o 8; hi o 16; hi o 24;
     lo 0; hi 0 8].
Proof. reflexivity. Qed.

Lemma read16 (b0 b1 : byte) v :
  b0 = lo v -> b1 = hi v 8 ->
  Z.lor (Z_of_byte b0) (Z.shiftl (Z_of_byte b1) 8) = v mod 2 ^ 16.
Proof.
  intros -> ->. unfold lo, hi. rewrite stored_octet0, stored_octet by lia.
  rewrite le16_roundtrip. unfold toUint32.
  apply Z.mod_mod_divide. exists (2 ^ 16). reflexivity.
Qed.

Lemma read32 (b0 b1 b2 b3 : byte) v :
  b0 = lo v -> b1 = hi v 8 -> b2 = hi v 16 -> b3 = hi v 24 ->
  toUint32 (Z.lor (Z.lor (Z.lor (Z_of_byte b0) (Z.shiftl (Z_of_byte b1) 8))
                         (Z.shiftl (Z_of_byte b2) 16))
                  (Z.shiftl (Z_of_byte b3) 24)) = toUint32 v.
Proof.
  intros -> -> -> ->. unfold lo, hi. rewrite stored_octet0, !stored_octet by lia.
  rewrite le32_roundtrip. fold (toUint32 (toUint32 v)). by rewrite !toUint32_idem.
Qed.

Lemma build_eocd_fields n s o :
  let E := build_eocd n s o in
  u32 E 0 = Ok SIG_EOCD
  /\ u16 E 8 = Ok (n mod 2 ^ 16)
  /\ u16 E 10 = Ok (n mod 2 ^ 16)
  /\ u32 E 12 = Ok (toUint32 s)
  /\ u32 E 16 = Ok (toUint32 o).
Proof.
  cbn zeta. rewrite build_eocd_eq.
  split; [reflexivity|].
  split; [rewrite u16_in_bounds by (vm_compute; discriminate); f_equal; by apply read16|].
  split; [rewrite u16_in_bounds by (vm_compute; discriminate); f_equal; by apply read16|].
  split; rewrite u32_in_bounds by (vm_compute; discriminate); f_equal; by apply read32.
Qed.

(** ** Slices *)

Lemma clamp_index_in n i : 0 <= i <= n -> clamp_index n i = i.
Proof. intros H. unfold clamp_index. destruct (Z.ltb_spec i 0); lia. Qed.

Lemma subarray_in_bounds (buf : bytes) s e :
  0 <= s -> s <= e -> e <= len buf ->
  subarray buf s e = take (Z.to_nat (e - s)) (drop (Z.to_nat s) buf).
Proof.
  intros. unfold subarray. by rewrite !clamp_index_in by lia.
Qed.

Lemma subarray_length (buf : bytes) s e :
  0 <= s -> s <= e -> e <= len buf -> len (subarray buf s e) = e - s.
Proof.
  intros. rewrite subarray_in_bounds by done. unfold len in *.
  rewrite length_take, length_drop. lia.
Qed.

Lemma subarray_full (buf : bytes) : subarray buf 0 (len buf) = buf.
Proof.
  rewrite subarray_in_bounds by (pose proof (len_nonneg buf); lia).
  rewrite Z.sub_0_r. unfold len. rewrite Nat2Z.id. simpl. apply firstn_all.
Qed.

Lemma subarray_app_middle (X R Y : bytes) a b :
  0 <= a -> a <= b -> b <= len R ->
  subarray (X ++ R ++ Y) (len X + a) (len X + b) = subarray R a b.
Proof.
  intros. pose proof (len_nonneg X). pose proof (len_nonneg Y).
  rewrite !subarray_in_bounds by (rewrite ?len_app; lia).
  replace (len X + b - (len X + a)) with (b - a) by lia.
  unfold len in *.
  replace (Z.to_nat (Z.of_nat (length X) + a)) with (length X + Z.to_nat a)%nat by lia.
  rewrite drop_app_add.
  rewrite drop_app_le by lia.
  rewrite take_app_le; [done|]. rewrite length_drop. lia.
Qed.

Lemma subarray_app_l (R Y : bytes) a b :
  0 <= a -> a <= b -> b <= len R ->
  subarray (R ++ Y) a b = subarray R a b.
Proof.
  intros. pose proof (subarray_app_middle [] R Y a b) as H2.
  simpl in H2. change (len []) with 0 in H2. rewrite !Z.add_0_l in H2. by apply H2.
Qed.

Lemma subarray_subarray (A : bytes) c d a b :
  0 <= c -> c <= d -> d <= len A -> 0 <= a -> a <= b -> b <= d - c ->
  subarray (subarray A c d) a b = subarray A (c + a) (c + b).
Proof.
  intros. rewrite (subarray_in_bounds (subarray A c d)) by (rewrite ?subarray_length; lia).
  rewrite !subarray_in_bounds by lia.
  replace (c + b - (c + a)) with (b - a) by lia.
  apply list_eq. intros i.
  destruct (decide (i < Z.to_nat (b - a))%nat) as [Hi|Hi].
  - rewrite !lookup_take_lt, !lookup_drop by done.
    rewrite lookup_take_lt by lia. rewrite lookup_drop. f_equal. lia.
  - by rewrite !lookup_take_ge by lia.
Qed.

(** The window every caller reads holds the last octets of the archive. *)
Lemma window_suffix (Q E : bytes) w :
  len E <= w -> w <= len (Q ++ E) ->
  exists Y, subarray (Q ++ E) (len (Q ++ E) - w) (len (Q ++ E)) = Y ++ E.
Proof.
  intros H1 H2. pose proof (len_nonneg E).
  rewrite subarray_in_bounds by lia.
  rewrite take_ge by (rewrite length_drop; unfold len in *; lia).
  exists (drop (Z.to_nat (len (Q ++ E) - w)) Q).
  rewrite drop_app_le; [done|]. rewrite len_app in *. unfold len in *. lia.
Qed.

(** ** The record [build_eocd] writes is the one [findEocd] finds *)

Lemma findEocd_trailing_record (Y : bytes) size n s o :
  findEocd (Y ++ build_eocd n s o) size = written_eocd size n s o.
Proof.
  set (E := build_eocd n s o). set (t := Y ++ E).
  assert (HlenE : len E = 22) by reflexivity.
  assert (Hlen : len t = len Y + 22) by (unfold t; rewrite len_app; lia).
  pose proof (len_nonneg Y) as HY.
  destruct (build_eocd_fields n s o) as (F0 & F8 & F10 & F12 & F16). fold E in F0, F8, F10, F12, F16.
  assert (R0 : u32 t (len Y) = Ok SIG_EOCD).
  { rewrite <- (Z.add_0_r (len Y)). unfold t. rewrite u32_app_r by lia. done. }
  assert (R8 : u16 t (len Y + 8) = Ok (n mod 2 ^ 16)).
  { unfold t. rewrite u16_app_r by lia. done. }
  assert (R10 : u16 t (len Y + 10) = Ok (n mod 2 ^ 16)).
  { unfold t. rewrite u16_app_r by lia. done. }
  assert (R12 : u32 t (len Y + 12) = Ok (toUint32 s)).
  { unfold t. rewrite u32_app_r by lia. done. }
  assert (R16 : u32 t (len Y + 16) = Ok (toUint32 o)).
  { unfold t. rewrite u32_app_r by lia. done. }
  rewrite (findEocd_first_candidate t size (len Y)).
  - unfold zip64_sentinel, record_at, written_eocd. rewrite R10, R12, R16.
    destruct (_ || _); [done|]. do 2 f_equal. lia.
  - unfold in_range. lia.
  - unfold is_candidate. rewrite R0, R8, R10. by rewrite !Z.eqb_refl.
  - intros j Hj [_ Hr]. lia.
Qed.

Lemma archive_eocd_trailing_record (Q : bytes) n s o :
  archive_eocd (Q ++ build_eocd n s o) =
    written_eocd (len (Q ++ build_eocd n s o)) n s o.
Proof.
  unfold archive_eocd. set (E := build_eocd n s o).
  assert (HlenE : len E = 22) by reflexivity.
  pose proof (len_nonneg Q).
  destruct (window_suffix Q E (Z.min (65536 + 22) (len (Q ++ E)))) as [Y ->].
  - rewrite len_app. lia.
  - lia.
  - apply findEocd_trailing_record.
Qed.

(** ** The shape of the appended tail *)

Lemma mjoin_cons {A} (x : list A) (l : list (list A)) : mjoin (x :: l) = x ++ mjoin l.
Proof. reflexivity. Qed.

Lemma mjoin_singleton {A} (x : list A) : mjoin [x] = x.
Proof. cbn. apply app_nil_r. Qed.

Lemma sum_len_fold (bs : list bytes) acc :
  fold_left (fun n b => n + len b) bs acc = acc + len (mjoin bs).
Proof.
  revert acc. induction bs as [|b bs IH]; intros acc; cbn [fold_left].
  - change (len (mjoin [])) with 0. lia.
  - rewrite IH, mjoin_cons, len_app. lia.
Qed.

Lemma sum_len_join (bs : list bytes) : sum_len bs = len (mjoin bs).
Proof. unfold sum_len. rewrite sum_len_fold. lia. Qed.

Section WithCodec.
Variable decode : bytes -> string.
Variable encode : string -> bytes.

Lemma build_locals_final files off :
  (build_locals encode files off).2 = off + len (mjoin (build_locals encode files off).1.1).
Proof.
  revert off. induction files as [|f fs IH]; intros off; cbn [build_locals].
  - cbn. change (len []) with 0. lia.
  - specialize (IH (off + len (buildLocalEntry encode (fname f) (fdata f)))).
    destruct (build_locals encode fs _) as [[blocks cds] final].
    cbn [fst snd] in *. rewrite mjoin_cons, len_app. lia.
Qed.

Lemma build_tail_shape eocd entries files :
  let '(L, R, N) := tail_body encode eocd entries files in
  build_tail encode eocd entries files =
    L ++ R ++ N ++
    build_eocd (len entries + len files) (len R + len N) (cdOffset eocd + len L).
Proof.
  unfold tail_body, build_tail.
  pose proof (build_locals_final files (cdOffset eocd)) as Hf.
  destruct (build_locals encode files (cdOffset eocd)) as [[blocks cds] final].
  cbn [fst snd] in Hf. subst final. unfold concat.
  rewrite !join_app, mjoin_singleton, !sum_len_join. done.
Qed.

(** ** The walk over the central directory *)

Lemma at_nonneg buf i : 0 <= at_ buf i.
Proof.
  unfold at_. destruct (i <? 0); [lia|].
  destruct (buf !! Z.to_nat i) as [b|]; [|lia]. apply Z_of_byte_range.
Qed.

Lemma u16_nonneg buf off v : u16 buf off = Ok v -> 0 <= v.
Proof.
  unfold u16. destruct (off + 2 >? len buf); [done|]. intros [= <-].
  apply Z.lor_nonneg. split; [apply at_nonneg|]. apply Z.shiftl_nonneg, at_nonneg.
Qed.

Lemma u32_nonneg buf off v : u32 buf off = Ok v -> 0 <= v.
Proof.
  unfold u32. destruct (off + 4 >? len buf); [done|]. intros [= <-].
  unfold toUint32. apply Z.mod_pos_bound. lia.
Qed.

Lemma parse_entry_spans cd pos e :
  parse_entry decode cd pos = Ok (Some e) -> spans cd pos e.
Proof.
  unfold parse_entry. destruct (pos + 4 >? len cd); [done|].
  destruct (u32 cd pos) as [sig|]; [|done]. cbn [mbind result_mbind result_bind].
  destruct (negb (sig =? SIG_CD)); [done|].
  destruct (pos + 46 >? len cd); [done|].
  destruct (u16 cd (pos + 10)) as [m|]; [|done]. cbn [mbind result_mbind result_bind].
  destruct (u32 cd (pos + 16)) as [c|]; [|done]. cbn [mbind result_mbind result_bind].
  destruct (u32 cd (pos + 20)) as [cs|]; [|done]. cbn [mbind result_mbind result_bind].
  destruct (u32 cd (pos + 24)) as [us|]; [|done]. cbn [mbind result_mbind result_bind].
  destruct (u16 cd (pos + 28)) as [nl|] eqn:Hnl; [|done]. cbn [mbind result_mbind result_bind].
  destruct (u16 cd (pos + 30)) as [el|] eqn:Hel; [|done]. cbn [mbind result_mbind result_bind].
  destruct (u16 cd (pos + 32)) as [cl|] eqn:Hcl; [|done]. cbn [mbind result_mbind result_bind].
  destruct (u32 cd (pos + 42)) as [lo_|]; [|done]. cbn [mbind result_mbind result_bind].
  apply u16_nonneg in Hnl, Hel, Hcl.
  destruct (Z.gtb_spec (pos + 46 + nl + el + cl) (len cd)); [done|].
  intros [= <-]. unfold spans. cbn. repeat split; try lia. f_equal. lia.
Qed.

Lemma parse_loop_contiguous cd fuel pos acc r :
  parse_loop decode fuel cd pos acc = Ok r ->
  exists new, r = acc ++ new /\ contiguous cd pos new.
Proof.
  revert pos acc. induction fuel as [|fuel IH]; intros pos acc; [done|].
  cbn [parse_loop]. destruct (pos <? len cd).
  - destruct (parse_entry decode cd pos) as [[e|]|] eqn:He; cbn [mbind result_mbind result_bind].
    + intros H. apply IH in H as (new & -> & Hc).
      exists (e :: new). split; [by rewrite <- app_assoc|].
      split; [by apply parse_entry_spans|done].
    + intros [= <-]. exists []. by rewrite app_nil_r.
    + done.
  - intros [= <-]. exists []. by rewrite app_nil_r.
Qed.

Lemma parse_loop_fuel cd fuel pos acc :
  (Z.to_nat (len cd - pos) < fuel)%nat ->
  parse_loop decode fuel cd pos acc <> Err OutOfFuel.
Proof.
  revert pos acc. induction fuel as [|fuel IH]; intros pos acc Hf; [lia|].
  cbn [parse_loop]. destruct (Z.ltb_spec pos (len cd)); [|done].
  destruct (parse_entry decode cd pos) as [[e|]|err] eqn:He; cbn [mbind result_mbind result_bind].
  - apply parse_entry_spans in He as (_ & ? & _). apply IH. lia.
  - done.
  - intros [= ->]. revert He. unfold parse_entry.
    repeat first
      [ done
      | match goal with
        | |- context [if ?c then _ else _] => destruct c
        | |- context [u16 ?b ?o] => unfold u16
        | |- context [u32 ?b ?o] => unfold u32
        end
      | progress cbn [mbind result_mbind result_bind] ].
Qed.

(** The walk never runs out of the turns it is given. *)
Lemma parseCentralDirectory_total cd :
  parseCentralDirectory decode cd <> Err OutOfFuel.
Proof. apply parse_loop_fuel. unfold len. lia. Qed.

Lemma parseCentralDirectory_contiguous cd entries :
  parseCentralDirectory decode cd = Ok entries -> contiguous cd 0 entries.
Proof.
  unfold parseCentralDirectory. intros H.
  destruct (parse_loop_contiguous cd (S (length cd)) 0 [] entries H) as (new & Heq & Hc).
  cbn [app] in Heq. subst new. exact Hc.
Qed.

Lemma cd_end_bounds cd pos es :
  pos <= len cd -> contiguous cd pos es -> pos <= cd_end pos es <= len cd.
Proof.
  revert pos. induction es as [|e es IH]; intros pos Hp; cbn [contiguous cd_end]; [lia|].
  intros [(_ & ? & ? & _) Hc]. specialize (IH _ ltac:(eassumption) Hc). lia.
Qed.

Lemma subarray_split (buf : bytes) a b c :
  0 <= a -> a <= b -> b <= c -> c <= len buf ->
  subarray buf a b ++ subarray buf b c = subarray buf a c.
Proof.
  intros. rewrite !subarray_in_bounds by lia.
  replace (Z.to_nat (c - a)) with (Z.to_nat (b - a) + Z.to_nat (c - b))%nat by lia.
  rewrite <- take_take_drop. f_equal. rewrite drop_drop. do 2 f_equal. lia.
Qed.

Lemma contiguous_join cd pos es :
  0 <= pos -> pos <= len cd -> contiguous cd pos es ->
  mjoin (map raw es) = subarray cd pos (cd_end pos es).
Proof.
  revert pos. induction es as [|e es IH]; intros pos Hp Hl; cbn [contiguous cd_end map].
  - intros _. rewrite subarray_in_bounds by lia. rewrite Z.sub_diag. done.
  - intros [(Ho & H46 & Hle & Hraw) Hc]. rewrite mjoin_cons.
    rewrite (IH (pos + cdEntryLength e)); [|lia|lia|done].
    rewrite Hraw. pose proof (cd_end_bounds _ _ _ Hle Hc).
    apply subarray_split; lia.
Qed.

Lemma contiguous_elem cd pos es e :
  contiguous cd pos es -> e ∈ es ->
  pos <= cdEntryOffset e
  /\ 0 <= cdEntryLength e
  /\ cdEntryOffset e + cdEntryLength e <= cd_end pos es
  /\ cd_end pos es <= len cd
  /\ raw e = subarray cd (cdEntryOffset e) (cdEntryOffset e + cdEntryLength e).
Proof.
  revert pos. induction es as [|x es IH]; intros pos Hc He; [by apply elem_of_nil in He|].
  cbn [contiguous cd_end] in *. destruct Hc as [(Ho & H46 & Hle & Hraw) Hc].
  pose proof (cd_end_bounds _ _ _ Hle Hc) as [Hb1 Hb2].
  apply elem_of_cons in He as [->|He].
  - rewrite Ho. repeat split; try lia; done.
  - destruct (IH _ Hc He) as (? & ? & ? & ? & ?). repeat split; try lia; done.
Qed.

(** ** What [findEocd] returns when it succeeds *)

Lemma scan_ok tail archiveSize n i e :
  i + 22 <= len tail ->
  scan tail archiveSize n i = Ok e ->
  exists k, i - Z.of_nat n < k <= i /\ 0 <= k
    /\ is_candidate tail k = true /\ zip64_sentinel tail k = false
    /\ e = record_at tail archiveSize k.
Proof.
  revert i. induction n as [|n IH]; intros i Hi; [done|].
  cbn [scan]. destruct (Z.ltb_spec i 0); [done|].
  rewrite probe_spec by lia.
  destruct (is_candidate tail i) eqn:Hc.
  - destruct (zip64_sentinel tail i) eqn:Hs; cbn [mbind result_mbind result_bind]; [done|].
    intros [= <-]. exists i. repeat split; (lia || done).
  - cbn [mbind result_mbind result_bind]. intros H'.
    apply IH in H' as (k & ? & ? & ? & ? & ?); [|lia]. exists k. repeat split; (lia || done).
Qed.

Lemma record_at_nonneg tail archiveSize k :
  0 <= cdSize (record_at tail archiveSize k) /\ 0 <= cdOffset (record_at tail archiveSize k)
  /\ 0 <= entryCount (record_at tail archiveSize k).
Proof.
  unfold record_at. cbn. repeat split.
  - destruct (u32 tail (k + 12)) eqn:E; [by eapply u32_nonneg|lia].
  - destruct (u32 tail (k + 16)) eqn:E; [by eapply u32_nonneg|lia].
  - destruct (u16 tail (k + 10)) eqn:E; [by eapply u16_nonneg|lia].
Qed.

Lemma archive_eocd_ok A e :
  archive_eocd A = Ok e ->
  offset e <= len A - 22 /\ 0 <= cdSize e /\ 0 <= cdOffset e
  /\ 0 <= entryCount e /\ entryCount e <> 0xffff.
Proof.
  unfold archive_eocd, findEocd. intros H.
  pose proof (len_nonneg A).
  apply scan_ok in H as (k & Hk & Hk0 & Hc & Hs & ->); [|lia].
  pose proof (record_at_nonneg (subarray A (len A - Z.min (65536 + 22) (len A)) (len A)) (len A) k)
    as (? & ? & ?).
  split_and!; try done.
  - rewrite subarray_length in Hk by lia. cbn [offset record_at].
    rewrite subarray_length by lia. lia.
  - unfold zip64_sentinel in Hs. unfold record_at. cbn [entryCount].
    rewrite u32_in_bounds in Hs by lia.
    destruct (u16 _ (k + 10)); [|done].
    apply orb_false_iff in Hs as [_ Hs]. by apply Z.eqb_neq in Hs.
Qed.

Lemma valid_archive_inv A eocd entries :
  valid_archive decode A eocd entries ->
  archive_eocd A = Ok eocd
  /\ parseCentralDirectory decode
       (subarray A (cdOffset eocd) (cdOffset eocd + cdSize eocd)) = Ok entries.
Proof.
  intros (Hl & _ & _). unfold locate, read_archive in Hl.
  cbn [mbind result_mbind result_bind] in Hl. fold (archive_eocd A) in Hl.
  destruct (archive_eocd A) as [e|]; [|done]. cbn [mbind result_mbind result_bind] in Hl.
  destruct (parseCentralDirectory decode _) as [es|] eqn:Hp; [|done].
  cbn in Hl. by injection Hl as -> ->.
Qed.

(** Every original entry is a slice of the original archive. *)
Lemma valid_archive_entries A eocd entries :
  valid_archive decode A eocd entries ->
  let cd := subarray A (cdOffset eocd) (cdOffset eocd + cdSize eocd) in
  len cd = cdSize eocd
  /\ 0 <= cdOffset eocd /\ 0 <= cdSize eocd
  /\ cdOffset eocd + cdSize eocd <= len A - 22
  /\ contiguous cd 0 entries.
Proof.
  intros Hv. destruct (valid_archive_inv _ _ _ Hv) as [He Hp].
  destruct Hv as (_ & Hle & _).
  apply archive_eocd_ok in He as (? & ? & ? & ? & ?).
  cbn zeta. rewrite subarray_length by lia.
  repeat split; try lia. by apply parseCentralDirectory_contiguous.
Qed.


End WithCodec.

(** ** Appending nothing *)

Lemma appendToZipTail_nil decode encode archiveSize readRange precomputed :
  appendToZipTail decode encode archiveSize readRange [] precomputed = Ok (archiveSize, []).
Proof. reflexivity. Qed.

Lemma appendToZip_nil decode encode archiveSize readRange readPrefix :
  appendToZip decode encode archiveSize readRange [] readPrefix = readPrefix archiveSize.
Proof. reflexivity. Qed.

Lemma rewritten_nil A : rewritten A (len A) [] = A.
Proof. unfold rewritten. by rewrite subarray_full, app_nil_r. Qed.

(** ** Sample archives *)

Lemma sample_zip_valid : valid_archive ascii_decode sample_zip sample_eocd sample_entries.
Proof. split_and!; vm_compute; (reflexivity || discriminate). Defined.


Lemma len_many_files : len many_files = 0xffff.
Proof. unfold many_files, len. rewrite length_replicate. lia. Qed.


(** ** Failure modes of [findEocd] *)

Lemma is_candidate_signature tail i :
  has_signature tail i = false -> is_candidate tail i = false.
Proof.
  unfold has_signature, is_candidate. destruct (u32 tail i) as [s|]; [|done].
  intros ->. by destruct (u16 tail (i + 8)), (u16 tail (i + 10)).
Qed.

(** C5, as the code has it.  For every tail buffer and archive size:
    [findEocd] fails with the not-a-ZIP error when no scanned position holds
    the EOCD signature, and also when every record found has a disk-entries
    count that differs from its total-entries count (such a record is
    skipped, it does not raise Unsupported); it fails with Unsupported when
    the last record whose two counts agree has a central-directory offset
    of 0xFFFFFFFF or an entry count of 0xFFFF. *)
Theorem findEocd_failure_modes (tail : bytes) (archiveSize : Z) :
  ((forall i, in_range tail i -> has_signature tail i = false) ->
     findEocd tail archiveSize = Err NotAZip)
  /\ ((forall i, in_range tail i -> is_candidate tail i = false) ->
     findEocd tail archiveSize = Err NotAZip)
  /\ (forall k, in_range tail k -> is_candidate tail k = true ->
        (forall j, k < j -> in_range tail j -> is_candidate tail j = false) ->
        zip64_sentinel tail k = true ->
        findEocd tail archiveSize = Err Unsupported).
Proof.
  split; [|split].
  - intros Hno. apply findEocd_no_candidate.
    intros i Hi. apply is_candidate_signature, Hno, Hi.
  - apply findEocd_no_candidate.
  - intros k Hk Hc Hno Hs.
    rewrite (findEocd_first_candidate tail archiveSize k Hk Hc Hno). by rewrite Hs.
Qed.

Lemma in_range_22 (tail : bytes) i : len tail = 22 -> in_range tail i -> i = 0.
Proof. unfold in_range. intros ->. lia. Defined.

Lemma findEocd_failure_modes_witness :
  findEocd [] 0 = Err NotAZip
  /\ findEocd multi_disk_tail 22 = Err NotAZip
  /\ findEocd zip64_tail 22 = Err Unsupported.
Proof.
  split; [|split].
  - apply (proj1 (findEocd_failure_modes [] 0)).
    intros i Hi. unfold in_range in Hi. change (len (@nil byte)) with 0 in Hi. lia.
  - apply (proj1 (proj2 (findEocd_failure_modes multi_disk_tail 22))).
    intros i Hi. rewrite (in_range_22 multi_disk_tail i eq_refl Hi). reflexivity.
  - apply (proj2 (proj2 (findEocd_failure_modes zip64_tail 22)) 0).
    + unfold in_range. vm_compute. intuition discriminate.
    + reflexivity.
    + intros j Hj Hr. rewrite (in_range_22 zip64_tail j eq_refl Hr) in Hj. lia.
    + reflexivity.
Defined.

(** C5 as stated fails on a multi-disk record: the tail below carries the
    signature with 1 entry on this disk out of 2, and [findEocd] answers
    with the not-a-ZIP error, not with Unsupported. *)
Lemma findEocd_multi_disk_counterexample :
  in_range multi_disk_tail 0
  /\ has_signature multi_disk_tail 0 = true
  /\ u16 multi_disk_tail 8 = Ok 1
  /\ u16 multi_disk_tail 10 = Ok 2
  /\ findEocd multi_disk_tail 22 = Err NotAZip
  /\ findEocd multi_disk_tail 22 <> Err Unsupported.
Proof.
  repeat split; try reflexivity; try discriminate.
  all: vm_compute; discriminate.
Qed.

End ZipFacts.

(* ===================================================================== *)
(** * Properties of the tunnel session *)
(* ===================================================================== *)

Module WispFacts.
Import Wisp.

(** ** The allowlist never matches a literal IP address *)

Lemma match_pod_head h : match_pod h = true -> exists r, h = String "p" r.
Proof.
  destruct h as [|c r]; [done|].
  destruct c as [[] [] [] [] [] [] [] []]; try done. by exists r.
Qed.

Lemma allowed_host_cases h :
  allowed_host h = true ->
  h = "auth.itunes.apple.com"%string \/ h = "buy.itunes.apple.com"%string
  \/ h = "init.itunes.apple.com"%string \/ match_pod h = true.
Proof.
  unfold allowed_host, ALLOWED_HOSTS. cbn [existsb].
  rewrite !orb_true_iff, !String.eqb_eq. naive_solver.
Qed.

Lemma allowed_host_not_ip h : allowed_host h = true -> is_literal_ip h = false.
Proof.
  intros H. apply allowed_host_cases in H as [->|[->|[->|H]]]; try reflexivity.
  apply match_pod_head in H as [r ->]. reflexivity.
Qed.

(** ** The dispatcher on a CONNECT frame *)

Section WithDecoder.
Variable decode : bytes -> string.

Lemma webSocketMessage_connect st buf sock write_ok :
  is_connect_frame buf ->
  webSocketMessage decode st (Binary buf) sock write_ok =
    handleConnect decode st (frame_streamId buf) (frame_payload buf) sock.
Proof.
  intros [Hlen Htype]. unfold webSocketMessage, frame_streamId, frame_payload.
  rewrite decide_False by lia. unfold getUint32. rewrite decide_True by lia.
  cbn [default]. rewrite Htype. reflexivity.
Qed.

Lemma admitted_true payload :
  admitted decode payload = true <->
  (4 <= length payload)%nat /\ connect_streamType payload = 1
  /\ connect_port payload = Some 443
  /\ allowed_host (connect_hostname decode payload) = true.
Proof.
  unfold admitted. rewrite !andb_true_iff, !bool_decide_eq_true, Z.eqb_eq. naive_solver.
Qed.

(** What [handleConnect] does, by the outcome of the admission check. *)
Lemma handleConnect_rejected st streamId payload sock :
  admitted decode payload = false ->
  handleConnect decode st streamId payload sock =
    (st, sendClose st streamId CLOSE_REASON_INVALID_INFO).
Proof.
  intros Hadm. unfold handleConnect.
  destruct (decide (length payload < 4)%nat) as [|Hlen]; [done|].
  unfold admitted in Hadm. rewrite bool_decide_eq_true_2 in Hadm by lia.
  unfold connect_port in *. unfold getUint16 in *.
  rewrite decide_True in * by lia.
  set (port := byte_at payload 1 + 256 * byte_at payload (1 + 1)) in *.
  destruct (Z.eqb_spec (connect_streamType payload) 1) as [Ht|Ht]; cbn [negb orb andb] in *; [|done].
  destruct (Z.eqb_spec port 443) as [Hp|Hp]; cbn [negb orb] in *.
  - rewrite Hp in Hadm. rewrite bool_decide_eq_true_2 in Hadm by done.
    cbn [andb] in Hadm. by rewrite Hadm.
  - done.
Qed.

Lemma handleConnect_admitted st streamId payload sock :
  admitted decode payload = true ->
  handleConnect decode st streamId payload sock =
    match sock with
    | Connected w =>
        let st' := {| streams := <[streamId := mkStream w]> (streams st); ws := ws st |} in
        (st', SocketConnect (connect_hostname decode payload) 443
                :: sendContinue st' streamId (128 * 1024))
    | ConnectThrows =>
        (st, SocketConnect (connect_hostname decode payload) 443
               :: sendClose st streamId CLOSE_REASON_NETWORK_ERROR)
    end.
Proof.
  intros Hadm. apply admitted_true in Hadm as (Hlen & Ht & Hp & Ha).
  unfold handleConnect. rewrite decide_False by lia.
  rewrite Hp, Ht, Ha. reflexivity.
Qed.

Lemma sendClose_no_socket st streamId reason h p :
  SocketConnect h p ∉ sendClose st streamId reason.
Proof. unfold sendClose. destruct (ws st); set_solver. Qed.

Lemma sendContinue_no_socket st streamId credit h p :
  SocketConnect h p ∉ sendContinue st streamId credit.
Proof. unfold sendContinue. destruct (ws st); set_solver. Qed.


End WithDecoder.

Lemma evil_frame_is_connect : is_connect_frame evil_frame.
Proof. split; [vm_compute; lia | reflexivity]. Defined.

Lemma auth_frame_is_connect : is_connect_frame auth_frame.
Proof. split; [vm_compute; lia | reflexivity]. Defined.


End WispFacts.

(* ===================================================================== *)
(** * Properties of the proof-of-work gate *)
(* ===================================================================== *)

Module PowFacts.
Import Pow.

Section WithPlatform.
Variable hmac_verify : bytes -> string -> bool.
Variable base64urlDecode : string -> option bytes.
Variable sha256 : string -> bytes.
Variable parseInt : string -> option Z.

Abbreviation verifyPow := (verifyPow hmac_verify base64urlDecode sha256 parseInt).
Abbreviation do_call := (do_call hmac_verify base64urlDecode sha256 parseInt).
Abbreviation run_calls := (run_calls hmac_verify base64urlDecode sha256 parseInt).

(** A challenge that is in the map is refused, whatever the nonce. *)
Lemma verifyPow_replay used c n env t t' v :
  used !! c = Some v ->
  verifyPow used c n env t t' = (Returned false, used).
Proof.
  intros Hin. unfold Pow.verifyPow.
  destruct (lastIndexOf_colon c); [|done].
  rewrite bool_decide_eq_true_2; [done|]. by exists v.
Qed.

(** The map a call leaves is the old one, or the old one with the challenge
    inserted and possibly pruned. *)
Lemma verifyPow_state used c n env t t' :
  let used' := (verifyPow used c n env t t').2 in
  used' = used
  \/ ((verifyPow used c n env t t').1 = Returned true
      /\ used !! c = None
      /\ (used' = <[c := t']> used
          \/ used' = filter (fun kv : string * Z =>
                               (t' - kv.2 >? POW_CHALLENGE_TTL * 2) = false)
                            (<[c := t']> used))).
Proof.
  cbn zeta. unfold Pow.verifyPow.
  destruct (lastIndexOf_colon c); [|by left].
  destruct (bool_decide (is_Some (used !! c))) eqn:Hu; [by left|].
  apply bool_decide_eq_false in Hu. rewrite <- eq_None_not_Some in Hu.
  destruct (base64urlDecode _); [|by left].
  destruct (negb (hmac_verify _ _)); [by left|].
  destruct (indexOf_colon _); [|by left].
  destruct (match parseInt _ with Some ts => _ | None => false end); [by left|].
  destruct (negb (hasLeadingZeroBits _ _)); [by left|].
  right. split; [done|]. split; [done|]. cbn [snd].
  destruct (_ >? MAX_USED_CHALLENGES); [by right|by left].
Qed.

Lemma verifyPow_accept_marks used c n env t t' used1 :
  verifyPow used c n env t t' = (Returned true, used1) ->
  used1 !! c = Some t'.
Proof.
  intros H. pose proof (verifyPow_state used c n env t t') as Hs.
  rewrite H in Hs. cbn [fst snd] in Hs.
  destruct Hs as [->|(_ & Hnone & [->| ->])].
  - revert H. unfold Pow.verifyPow.
    destruct (lastIndexOf_colon c); [|done].
    destruct (bool_decide _); [done|].
    destruct (base64urlDecode _); [|done].
    destruct (negb (hmac_verify _ _)); [done|].
    destruct (indexOf_colon _); [|done].
    destruct (match parseInt _ with Some ts => _ | None => false end); [done|].
    destruct (negb (hasLeadingZeroBits _ _)); [done|].
    intros [= Heq]. 
    assert (Hc : used !! c = Some t').
    { destruct (_ >? MAX_USED_CHALLENGES).
      - rewrite <- Heq. apply map_lookup_filter_Some. split; [apply lookup_insert_eq|].
        cbn. rewrite Z.sub_diag. reflexivity.
      - rewrite <- Heq. apply lookup_insert_eq. }
    exact Hc.
  - apply lookup_insert_eq.
  - apply map_lookup_filter_Some. split; [apply lookup_insert_eq|].
    cbn. rewrite Z.sub_diag. reflexivity.
Qed.

(** An entry survives every call made no later than twice the TTL after the
    entry was recorded. *)
Lemma do_call_keeps used k c v :
  used !! c = Some v ->
  call_now2 k - v <= POW_CHALLENGE_TTL * 2 ->
  (do_call used k).2 !! c = Some v.
Proof.
  intros Hin Hfresh. unfold Pow.do_call.
  pose proof (verifyPow_state used (call_challenge k) (call_nonce k) (call_env k)
                (call_now k) (call_now2 k)) as Hs.
  cbn zeta in Hs. destruct Hs as [->|(_ & Hnone & [->| ->])]; [done|..].
  - rewrite lookup_insert_ne; [done|]. congruence.
  - apply map_lookup_filter_Some. split.
    + rewrite lookup_insert_ne; [done|]. congruence.
    + cbn. rewrite Z.gtb_ltb. apply Z.ltb_ge. lia.
Qed.

Lemma run_calls_keeps used calls c v :
  used !! c = Some v ->
  Forall (fun k => call_now2 k - v <= POW_CHALLENGE_TTL * 2) calls ->
  run_calls used calls !! c = Some v.
Proof.
  revert used. induction calls as [|k calls IH]; intros used Hin Hall; [done|].
  apply Forall_cons in Hall as [Hk Hall]. cbn [Pow.run_calls fold_left].
  apply IH; [|done]. by apply do_call_keeps.
Qed.

(** C9.  Once [verifyPow] has accepted a challenge, every later call with
    the same challenge made within the challenge's TTL returns [false] and
    leaves the map as it is, whatever the nonce and whatever calls came in
    between.  The clock is read in seconds and does not run backwards, and
    the challenge was issued (its timestamp) no later than it was
    accepted. *)
Theorem pow_one_shot used c n env t1 t1' used1 calls n' env' t t' ts :
  verifyPow used c n env t1 t1' = (Returned true, used1) ->
  challenge_timestamp parseInt c = Some ts ->
  ts <= t1' ->
  Forall (fun k => call_now2 k <= t) calls ->
  t - ts <= POW_CHALLENGE_TTL ->
  verifyPow (run_calls used1 calls) c n' env' t t'
    = (Returned false, run_calls used1 calls).
Proof.
  intros Hacc Hts Hissue Hclock Httl.
  apply verifyPow_replay with (v := t1').
  apply run_calls_keeps; [by eapply verifyPow_accept_marks|].
  eapply Forall_impl; [exact Hclock|]. cbn. intros k Hk.
  unfold POW_CHALLENGE_TTL in *. lia.
Qed.

End WithPlatform.

Lemma pow_one_shot_witness :
  let verify := Pow.verifyPow toy_hmac_verify toy_base64urlDecode toy_sha256 toy_parseInt in
  let run := Pow.run_calls toy_hmac_verify toy_base64urlDecode toy_sha256 toy_parseInt in
  let used1 := (verify ∅ sample_challenge "n1"%string None 1005 1005).2 in
  let calls := [mkCall "1001:other:sig" "n"%string None 1010 1010] in
  (verify ∅ sample_challenge "n1"%string None 1005 1005).1 = Returned true
  /\ verify (run used1 calls) sample_challenge "n2"%string None 1050 1050
     = (Returned false, run used1 calls).
Proof.
  cbn zeta. split; [reflexivity|].
  apply (pow_one_shot toy_hmac_verify toy_base64urlDecode toy_sha256 toy_parseInt
           ∅ sample_challenge "n1"%string None 1005 1005 _ _ "n2"%string None 1050 1050 1000).
  - reflexivity.
  - reflexivity.
  - lia.
  - repeat constructor. cbn. lia.
  - unfold POW_CHALLENGE_TTL. lia.
Defined.

End PowFacts.

(* ===================================================================== *)
(** * Properties of the multipart upload *)
(* ===================================================================== *)

Module UploadFacts.
Import Upload.

Lemma set_at_length (buf src : bytes) off :
  (off + length src <= length buf)%nat -> length (set_at buf src off) = length buf.
Proof.
  intros H. unfold set_at. rewrite !length_app, length_take, length_drop. lia.
Qed.

(** ** mergeChunks always returns a part of the size asked for *)

Lemma merge_step_length size m chunk :
  0 <= pos m <= size -> len (merged m) = size ->
  let m' := merge_step size m chunk in
  0 <= pos m' <= size /\ len (merged m') = size.
Proof.
  intros Hp Hl. unfold merge_step. pose proof (len_nonneg chunk) as Hc.
  destruct (filled m); [done|].
  destruct (Z.leb_spec (len chunk) (size - pos m)); cbn.
  - split; [lia|]. unfold len in *. rewrite set_at_length; lia.
  - split; [lia|]. unfold len in *. rewrite set_at_length; [lia|].
    rewrite length_take. lia.
Qed.

Lemma mergeChunks_length chunks size :
  0 <= size -> len (mergeChunks chunks size).1 = size.
Proof.
  intros Hs. unfold mergeChunks. cbn [fst].
  assert (H : forall m, 0 <= pos m <= size -> len (merged m) = size ->
            len (merged (fold_left (merge_step size) chunks m)) = size).
  { induction chunks as [|c cs IH]; intros m Hp Hl; [done|].
    cbn [fold_left]. destruct (merge_step_length size m c Hp Hl). by apply IH. }
  apply H; cbn; [lia|]. unfold len, zeros. rewrite length_replicate. lia.
Qed.

(** ** Sorting parts that are already in order *)

Lemma consecutive_number ps i p :
  consecutive_from_1 ps -> ps !! i = Some p -> partNumber p = Z.of_nat (S i).
Proof.
  unfold consecutive_from_1. intros Hc Hi.
  assert (H : map partNumber ps !! i = Some (partNumber p)) by (by rewrite list_lookup_fmap, Hi).
  rewrite Hc in H. rewrite list_lookup_fmap in H.
  destruct (seq 1 (length ps) !! i) as [k|] eqn:Hk; [|done].
  apply lookup_seq in Hk as [-> _]. cbn in H. injection H as <-. lia.
Qed.

Lemma consecutive_app ps p :
  consecutive_from_1 ps -> partNumber p = len ps + 1 -> consecutive_from_1 (ps ++ [p]).
Proof.
  unfold consecutive_from_1, len. intros Hc Hp.
  rewrite map_app, Hc, length_app. cbn [length map].
  rewrite Nat.add_1_r, seq_S, map_app. cbn [map]. do 2 f_equal. lia.
Qed.

Lemma consecutive_init ps p : consecutive_from_1 (ps ++ [p]) -> consecutive_from_1 ps.
Proof.
  unfold consecutive_from_1. rewrite map_app, length_app. cbn [length map].
  rewrite Nat.add_1_r, seq_S, map_app. cbn [map]. intros H.
  apply app_inj_tail in H. tauto.
Qed.

Lemma sort_parts_consecutive ps : consecutive_from_1 ps -> sort_parts ps = ps.
Proof.
  intros Hc. unfold sort_parts, sort_by.
  assert (H : forall done_ todo, done_ ++ todo = ps ->
            fold_left (fun acc p => insert_by partNumber p acc) todo done_ = ps).
  { intros done_ todo. revert done_. induction todo as [|p todo IH]; intros done_ Heq.
    - by rewrite app_nil_r in Heq.
    - cbn [fold_left]. rewrite insert_by_last.
      + apply IH. by rewrite <- app_assoc.
      + apply Forall_forall. intros q Hq.
        apply list_elem_of_lookup in Hq as [i Hi].
        assert (Hqi : ps !! i = Some q) by (rewrite <- Heq; by apply lookup_app_l_Some).
        assert (Hpi : ps !! length done_ = Some p).
        { rewrite <- Heq. by rewrite list_lookup_middle. }
        apply lookup_lt_Some in Hi.
        rewrite (consecutive_number _ _ _ Hc Hqi), (consecutive_number _ _ _ Hc Hpi). lia. }
  by apply (H [] ps).
Qed.

Section WithConfig.
Variable partSize : Z.
Variable maxDownload : Z.
Variable upload_ok : Z -> bool.
Hypothesis partSize_pos : 0 < partSize.

Abbreviation full := (Upload.full partSize).
Abbreviation good := (Upload.good partSize).
Abbreviation inv := (Upload.inv partSize).
Abbreviation keeps := (Upload.keeps partSize).
Abbreviation full_but_last := (Upload.full_but_last partSize).
Abbreviation await_pending := (Upload.await_pending).
Abbreviation upload_full_part := (Upload.upload_full_part partSize upload_ok).
Abbreviation upload_while := (Upload.upload_while partSize upload_ok).
Abbreviation fire_pending := (Upload.fire_pending partSize upload_ok).
Abbreviation flushBuffer := (Upload.flushBuffer partSize upload_ok).
Abbreviation on_chunk := (Upload.on_chunk partSize maxDownload upload_ok).
Abbreviation finish := (Upload.finish partSize upload_ok).
Abbreviation read_loop := (Upload.read_loop partSize maxDownload upload_ok).

Lemma keeps_bind post1 post2 r f :
  keeps post1 r ->
  (forall st, inv st -> post1 st -> keeps post2 (f st)) ->
  keeps post2 (r ≫= f).
Proof.
  destruct r as [st|[e st]]; cbn; [|done]. intros [Hi Hp] Hf. by apply Hf.
Qed.

Lemma keeps_weaken post1 post2 r :
  keeps post1 r -> (forall st, post1 st -> post2 st) -> keeps post2 r.
Proof. destruct r as [st|[e st]]; cbn; [|done]. intros [Hi Hp] H. auto. Qed.

Lemma await_pending_keeps st : inv st -> keeps idle (await_pending st).
Proof.
  intros [[Hc Hf] Hs]. unfold Upload.await_pending, Upload.inv, Upload.good, synced in *.
  destruct (pendingUpload st) as [[p []]|] eqn:Hp; cbn.
  - destruct Hs as [Hparts Hnum]. split; [|done]. split; [done|].
    unfold synced. cbn. done.
  - done.
  - split; [|done]. split; [done|]. unfold synced. by rewrite Hp.
Qed.

Lemma upload_full_part_keeps st :
  inv st -> idle st ->
  keeps (fun st' => idle st' /\ bufferSize st' = bufferSize st - partSize)
        (upload_full_part st).
Proof.
  intros [[Hc Hf] Hs] Hidle. unfold Upload.upload_full_part, synced, idle in *.
  rewrite Hidle in Hs. destruct Hs as [Hparts Hnum].
  pose proof (mergeChunks_length (chunks st) partSize ltac:(lia)) as Hlen.
  destruct (mergeChunks (chunks st) partSize) as [merged remaining]. cbn [fst] in Hlen.
  destruct (upload_ok (partNum st)); cbn; [|done].
  split; [|done]. split.
  - split; cbn.
    + by apply consecutive_app.
    + apply Forall_app. split; [done|]. by constructor.
  - unfold synced. cbn. rewrite Hidle. rewrite Hparts, len_app. split; [done|].
    change (len [_]) with 1. lia.
Qed.

Lemma upload_while_keeps fuel bound st :
  partSize <= bound ->
  (Z.to_nat (bufferSize st / partSize) <= fuel)%nat ->
  inv st -> idle st -> keeps idle (upload_while fuel bound st).
Proof.
  intros Hb. revert st. induction fuel as [|fuel IH]; intros st Hfuel Hinv Hidle.
  - cbn [Upload.upload_while]. destruct (Z.geb_spec (bufferSize st) bound); [|done].
    exfalso. assert (1 <= bufferSize st / partSize); [|lia].
    apply Z.div_le_lower_bound; lia.
  - cbn [Upload.upload_while]. destruct (Z.geb_spec (bufferSize st) bound); [|done].
    eapply keeps_bind; [by apply upload_full_part_keeps|].
    intros st' Hinv' [Hidle' Hbs]. apply IH; [|done|done].
    rewrite Hbs. replace (bufferSize st - partSize) with (bufferSize st + (-1) * partSize) by lia.
    rewrite Z.div_add by lia.
    assert (1 <= bufferSize st / partSize) by (apply Z.div_le_lower_bound; lia). lia.
Qed.

Lemma fire_pending_inv st : inv st -> idle st -> inv (fire_pending st).
Proof.
  intros [[Hc Hf] Hs] Hidle. unfold Upload.fire_pending, synced, idle in *.
  rewrite Hidle in Hs. destruct Hs as [Hparts Hnum].
  destruct (bufferSize st >=? partSize);
    [|split; [done|]; unfold synced; by rewrite Hidle].
  pose proof (mergeChunks_length (chunks st) partSize ltac:(lia)) as Hlen.
  destruct (mergeChunks (chunks st) partSize) as [merged remaining]. cbn [fst] in Hlen.
  destruct (upload_ok (partNum st)) eqn:Hok.
  - split.
    + split; cbn.
      * by apply consecutive_app.
      * apply Forall_app. split; [done|]. by constructor.
    + unfold synced. cbn. rewrite Hparts, len_app. split; [done|].
      change (len [_]) with 1. lia.
  - split; [done|]. unfold synced. by cbn.
Qed.

Lemma flushBuffer_keeps st : inv st -> keeps (fun _ => True) (flushBuffer st).
Proof.
  intros Hinv. unfold Upload.flushBuffer.
  eapply keeps_bind; [by apply await_pending_keeps|]. intros st1 Hinv1 Hidle1.
  eapply keeps_bind.
  { apply upload_while_keeps; [lia|unfold turns; lia|done|done]. }
  intros st2 Hinv2 Hidle2. cbn. split; [|done]. by apply fire_pending_inv.
Qed.

Lemma on_chunk_keeps st value : inv st -> keeps (fun _ => True) (on_chunk st value).
Proof.
  intros Hinv. unfold Upload.on_chunk.
  destruct (_ >? maxDownload); [cbn; by destruct Hinv|].
  match goal with |- context [flushBuffer ?s] => set (st1 := s) end.
  assert (Hinv1 : inv st1) by (destruct Hinv as [[? ?] ?]; done).
  destruct (bufferSize st1 >=? partSize); [by apply flushBuffer_keeps|done].
Qed.

Lemma read_loop_keeps events st : inv st -> keeps (fun _ => True) (read_loop events st).
Proof.
  revert st. induction events as [|[| |value] events IH]; intros st Hinv.
  - done.
  - cbn. by destruct Hinv.
  - cbn. by destruct Hinv.
  - cbn [Upload.read_loop]. eapply keeps_bind; [by apply on_chunk_keeps|].
    intros st' Hinv' _. by apply IH.
Qed.

Lemma finish_spec st :
  inv st ->
  match finish st with
  | Ok st' =>
      parts st' = uploaded st' /\ consecutive_from_1 (uploaded st')
      /\ full_but_last (uploaded st')
  | Err (e, st') => good st' /\ e <> OutOfFuel
  end.
Proof.
  intros Hinv. unfold Upload.finish.
  pose proof (await_pending_keeps st Hinv) as H1.
  destruct (await_pending st) as [st1|[e st1]]; cbn [mbind result_mbind result_bind]; [|done].
  destruct H1 as [Hinv1 Hidle1].
  assert (H2 : keeps idle (upload_while (turns partSize st1) partSize st1)).
  { apply upload_while_keeps; [lia|unfold turns; lia|done|done]. }
  destruct (upload_while _ _ st1) as [st2|[e st2]]; cbn [mbind result_mbind result_bind]; [|done].
  destruct H2 as [[[Hc Hf] Hs] Hidle2]. unfold synced, idle in *.
  rewrite Hidle2 in Hs. destruct Hs as [Hparts Hnum].
  destruct (bufferSize st2 >? 0).
  - destruct (mergeAll _ _) as [final|]; [|done].
    destruct (upload_ok (partNum st2)); [|done]. cbn.
    split; [by rewrite Hparts|]. split; [by apply consecutive_app|].
    exists (uploaded st2), [mkPart (partNum st2) final]. done.
  - split; [done|]. split; [done|]. exists (uploaded st2), [].
    split_and!; [by rewrite app_nil_r|done|cbn; lia].
Qed.

Lemma good_full_but_last st : good st -> full_but_last (uploaded st).
Proof.
  intros [_ Hf]. exists (uploaded st), [].
  split_and!; [by rewrite app_nil_r|done|cbn; lia].
Qed.

Lemma full_but_highest ps :
  consecutive_from_1 ps -> full_but_last ps -> all_full_but_highest partSize ps.
Proof.
  intros Hc (init & tl & -> & Hf & Htl) p q Hp Hq Hlt.
  destruct tl as [|l [|? ?]]; [| |cbn in Htl; lia].
  - rewrite app_nil_r in Hp. by apply (proj1 (Forall_forall _ _) Hf).
  - apply elem_of_app in Hp as [Hp|Hp]; [by apply (proj1 (Forall_forall _ _) Hf)|].
    apply list_elem_of_singleton in Hp as ->. exfalso.
    apply list_elem_of_lookup in Hq as [i Hi].
    pose proof (lookup_lt_Some _ _ _ Hi) as Hlen.
    assert (Hl : (init ++ [l]) !! length init = Some l) by (by rewrite list_lookup_middle).
    rewrite (consecutive_number _ _ _ Hc Hi), (consecutive_number _ _ _ Hc Hl) in Hlt.
    rewrite length_app in Hlen. cbn in Hlen. lia.
Qed.


Lemma initial_inv : inv initial.
Proof. repeat split; done. Qed.

Lemma streamToR2_with_spec events :
  let r := streamToR2_with partSize maxDownload upload_ok events in
  consecutive_from_1 (received r)
  /\ full_but_last (received r)
  /\ all_full_but_highest partSize (received r)
  /\ match ending_of r with
     | Completed submitted => submitted = received r /\ consecutive_from_1 submitted
     | Failed e => e <> OutOfFuel
     end.
Proof.
  cbn zeta. unfold streamToR2_with.
  pose proof (read_loop_keeps events initial initial_inv) as H1.
  destruct (read_loop events initial) as [st1|[e st1]]; cbn [mbind result_mbind result_bind].
  - destruct H1 as [Hinv1 _]. pose proof (finish_spec st1 Hinv1) as H2.
    destruct (finish st1) as [st2|[e st2]]; cbn [ending_of received].
    + destruct H2 as (Hparts & Hc & Hf).
      split_and!; [done|done|by apply full_but_highest|..];
        rewrite Hparts; by rewrite sort_parts_consecutive.
    + destruct H2 as [Hg Hne]. pose proof (good_full_but_last _ Hg).
      split_and!; [apply Hg|done|apply full_but_highest; [apply Hg|done]|done].
  - cbn [ending_of received]. destruct H1 as [Hg Hne]. pose proof (good_full_but_last _ Hg).
    split_and!; [apply Hg|done|apply full_but_highest; [apply Hg|done]|done].
Qed.

End WithConfig.

(** C4.  For every download streamed to the blob store, whatever the body
    delivers and whichever uploads fail: the parts the store receives are
    numbered 1, 2, ..., n in this order, every one of them except the last
    (the one with the highest number) holds exactly 25 MiB, and when the
    run reaches [complete] the parts submitted are exactly those, so their
    numbers are the strictly increasing consecutive run from 1.  A run that
    fails does so for a reason of the code, never for the bound of the
    modelled loops. *)
Theorem multipart_parts upload_ok events :
  let r := streamToR2 upload_ok events in
  consecutive_from_1 (received r)
  /\ full_but_last UPLOAD_PART_SIZE (received r)
  /\ all_full_but_highest UPLOAD_PART_SIZE (received r)
  /\ match ending_of r with
     | Completed submitted => submitted = received r /\ consecutive_from_1 submitted
     | Failed e => e <> OutOfFuel
     end.
Proof.
  cbn zeta. unfold streamToR2.
  exact (streamToR2_with_spec UPLOAD_PART_SIZE MAX_DOWNLOAD_SIZE upload_ok eq_refl events).
Qed.

Lemma multipart_parts_witness :
  ending_of (streamToR2 (fun _ => true) sample_body) = Completed sample_parts
  /\ consecutive_from_1 sample_parts.
Proof.
  pose proof (multipart_parts (fun _ => true) sample_body) as (_ & _ & _ & H).
  change (ending_of (streamToR2 (fun _ => true) sample_body)) with (Completed sample_parts) in H.
  destruct H as [_ H]. split; [reflexivity | exact H].
Defined.

(** The same loop with parts of four octets, to see several parts. *)
Example streamToR2_small :
  streamToR2_with 4 100 (fun _ => true)
    [Chunk (list_byte_of_string "abc"); Chunk (list_byte_of_string "defghij")]
  = {| ending_of :=
         Completed [mkPart 1 (list_byte_of_string "abcd");
                    mkPart 2 (list_byte_of_string "efgh");
                    mkPart 3 (list_byte_of_string "ij")];
       received := [mkPart 1 (list_byte_of_string "abcd");
                    mkPart 2 (list_byte_of_string "efgh");
                    mkPart 3 (list_byte_of_string "ij")] |}.
Proof. reflexivity. Qed.

End UploadFacts.

(* ===================================================================== *)
(** * Properties of the task store *)
(* ===================================================================== *)

Module StoreFacts.
Import Store.

(** ** Sanitization *)

Lemma sanitize_no_secrets task hasFile fileSize :
  no_secrets (sanitize task hasFile fileSize).
Proof.
  unfold no_secrets, secret_fields, sanitize.
  repeat constructor;
    rewrite !lookup_insert_ne by done;
    repeat (rewrite lookup_delete_eq || rewrite lookup_delete_ne by done); done.
Qed.

Lemma public_no_secrets hasFile sw :
  no_secrets (<["hasFile" := JBool hasFile]> (<["software" := sw]> (∅ : object))).
Proof.
  unfold no_secrets, secret_fields.
  repeat constructor; rewrite !lookup_insert_ne by done; apply lookup_empty.
Qed.

Section WithUrl.
Variable parse_url : string -> option (string * string).

Abbreviation createTask := (Store.createTask parse_url).

Lemma createTask_sanitized st params uuid now st' out :
  createTask st params uuid now = Ok (st', out) -> no_secrets out.
Proof.
  unfold Store.createTask.
  destruct (validateDownloadURL parse_url _); [|done]. cbn [mbind result_mbind result_bind].
  destruct (_ <? MIN_ACCOUNT_HASH_LENGTH); [done|].
  destruct (find_duplicate st params); [done|].
  cbn. intros [= _ <-]. apply sanitize_no_secrets.
Qed.

Lemma getTask_sanitized st i hash out : getTask st i hash = Some out -> no_secrets out.
Proof.
  unfold getTask. destruct (loadTask st i); [|done].
  destruct (negb _); [done|]. intros [= <-]. apply sanitize_no_secrets.
Qed.

Lemma listTasks_sanitized st hashes : Forall no_secrets (listTasks st hashes).
Proof.
  unfold listTasks. apply Forall_forall. intros out Hin.
  apply list_elem_of_bind in Hin as (hash & Hin & _).
  apply list_elem_of_bind in Hin as (i & Hin & _).
  destruct (loadTask st i); [|by apply elem_of_nil in Hin].
  apply list_elem_of_singleton in Hin as ->. apply sanitize_no_secrets.
Qed.

Lemma getTaskPublic_sanitized st i out : getTaskPublic st i = Some out -> no_secrets out.
Proof.
  unfold getTaskPublic. destruct (loadTask st i); [|done].
  destruct (negb _); [done|]. intros [= <-]. apply public_no_secrets.
Qed.

End WithUrl.

(** C3.  Every task record that [createTask], [getTask], [listTasks] or
    [getTaskPublic] returns, from any store and for any input, has no
    property named downloadURL, sinfs, iTunesMetadata or filePath. *)
Theorem task_rpcs_sanitized parse_url st :
  (forall params uuid now st' out,
     Store.createTask parse_url st params uuid now = Ok (st', out) -> no_secrets out)
  /\ (forall i hash out, getTask st i hash = Some out -> no_secrets out)
  /\ (forall hashes, Forall no_secrets (listTasks st hashes))
  /\ (forall i out, getTaskPublic st i = Some out -> no_secrets out).
Proof.
  split_and!.
  - intros. by eapply createTask_sanitized.
  - intros. by eapply getTask_sanitized.
  - apply listTasks_sanitized.
  - intros. by eapply getTaskPublic_sanitized.
Qed.

Lemma task_rpcs_sanitized_witness :
  no_secrets created_out
  /\ (exists out, getTask completed_store "id1" "aaaaaaaa" = Some out /\ no_secrets out)
  /\ (exists out, getTaskPublic completed_store "id1" = Some out /\ no_secrets out).
Proof.
  split_and!.
  - apply (proj1 (task_rpcs_sanitized sample_url empty_store)
             sample_params "id1"%string 1000 created_store created_out).
    vm_compute. reflexivity.
  - eexists. split; [reflexivity|].
    apply (proj1 (proj2 (task_rpcs_sanitized sample_url completed_store))
             "id1"%string "aaaaaaaa"%string).
    reflexivity.
  - eexists. split; [reflexivity|].
    apply (proj2 (proj2 (proj2 (task_rpcs_sanitized sample_url completed_store)))
             "id1"%string).
    reflexivity.
Defined.

(** ** Invariants *)

Ltac store_simpl :=
  cbn [tasks r2keys accounts runs bucket with_tasks with_r2keys with_accounts with_runs
       with_bucket saveTask loadTask removeFromAccountIndex] in *.

(** ** A change that touches the blob store only *)

Lemma store_inv_same st st' :
  tasks st' = tasks st -> r2keys st' = r2keys st -> accounts st' = accounts st ->
  runs st' = runs st -> store_inv st -> store_inv st'.
Proof.
  intros Ht Hk Ha Hr (H1 & H2 & H3 & H4).
  unfold store_inv, completed_iff_keyed, deduplicated, indexed, runs_live.
  rewrite Ht, Hk, Ha, Hr. done.
Qed.

(** ** A change of one stored task *)

Lemma update_inv st st' i t0 t' :
  store_inv st ->
  tasks st !! i = Some t0 ->
  tasks st' = <[i := t']> (tasks st) ->
  accounts st' = accounts st ->
  id t' = i -> accountHash t' = accountHash t0 -> software t' = software t0 ->
  status_of t0 <> completed ->
  (status_of t0 = failed -> status_of t' = failed) ->
  (status_of t' = completed -> exists k, r2keys st' = <[i := k]> (r2keys st)) ->
  (status_of t' <> completed -> r2keys st' = r2keys st) ->
  (forall j t, runs st' !! j = Some t ->
     (j = i /\ id t = i
      /\ (status_of t' = downloading \/ status_of t' = injecting)
      /\ status_of t = status_of t'
      /\ accountHash t = accountHash t' /\ software t = software t')
     \/ (j <> i /\ runs st !! j = Some t)) ->
  store_inv st'.
Proof.
  intros (Hkey & Hdedup & Hidx & Hruns) Ht0 Htasks Hacc Hid Hhash Hsw Hnc Hfail Hk1 Hk2 Hr.
  assert (Hnokey : r2keys st !! i = None).
  { destruct (r2keys st !! i) eqn:E; [|done]. exfalso.
    destruct (proj1 (Hkey i)) as (t & Ht & Hc); [by rewrite E|]. congruence. }
  split_and!.
  - (* completed iff keyed *)
    intros j. rewrite Htasks. destruct (decide (j = i)) as [->|Hne].
    + rewrite lookup_insert_eq. destruct (decide (status_of t' = completed)) as [Hc|Hc].
      * destruct (Hk1 Hc) as [k ->]. rewrite lookup_insert_eq. split; [|by eexists]. eauto.
      * rewrite (Hk2 Hc), Hnokey. split; [by intros []|]. intros (t & [= <-] & ?). done.
    + rewrite lookup_insert_ne by done.
      destruct (decide (status_of t' = completed)) as [Hc|Hc].
      * destruct (Hk1 Hc) as [k ->]. rewrite lookup_insert_ne by done. apply Hkey.
      * rewrite (Hk2 Hc). apply Hkey.
  - (* deduplicated *)
    intros h b v i1 i2 t1 t2. rewrite Htasks.
    assert (Hlive : forall t, live_duplicate h b v t' -> t = t0 -> live_duplicate h b v t).
    { intros t (<- & <- & <- & Hs) ->. unfold live_duplicate. rewrite Hhash, Hsw.
      split_and!; try done. intros Hf. by apply Hs, Hfail. }
    destruct (decide (i1 = i)) as [->|H1], (decide (i2 = i)) as [->|H2]; [done|..].
    + rewrite lookup_insert_eq, lookup_insert_ne by done. intros [= <-] Ht2 Hl1 Hl2.
      apply (Hdedup h b v i i2 t0 t2); auto.
    + rewrite lookup_insert_ne, lookup_insert_eq by done. intros Ht1 [= <-] Hl1 Hl2.
      apply (Hdedup h b v i1 i t1 t0); auto.
    + rewrite !lookup_insert_ne by done. apply Hdedup.
  - (* indexed *)
    intros j t. rewrite Htasks, Hacc. destruct (decide (j = i)) as [->|Hne].
    + rewrite lookup_insert_eq. intros [= <-]. split; [done|].
      rewrite Hhash. by apply (Hidx i t0).
    + rewrite lookup_insert_ne by done. apply Hidx.
  - (* runs *)
    intros j t Hj. rewrite Htasks.
    destruct (Hr j t Hj) as [(-> & ? & ? & ? & ? & ?)|[Hne Hold]].
    + split; [done|]. exists t'. rewrite lookup_insert_eq. done.
    + rewrite lookup_insert_ne by done. by apply Hruns.
Qed.

(** ** Purging a task *)

Lemma purgeTask_inv st i hash r2key task :
  store_inv st -> store_inv (purgeTask st i hash r2key task).
Proof.
  intros (Hkey & Hdedup & Hidx & Hruns). unfold purgeTask, deleteR2Files.
  split_and!.
  - intros j. store_simpl. destruct (decide (j = i)) as [->|Hne].
    + rewrite !lookup_delete_eq. split; [by intros []|]. by intros (? & ? & ?).
    + rewrite !lookup_delete_ne by done. apply Hkey.
  - intros h b v i1 i2 t1 t2. store_simpl.
    intros H1 H2. apply lookup_delete_Some in H1 as [_ H1], H2 as [_ H2].
    by apply Hdedup.
  - intros j t. store_simpl. intros Hj. apply lookup_delete_Some in Hj as [Hne Hj].
    destruct (Hidx j t Hj) as [Hid Hin]. split; [done|].
    destruct (decide (accountHash t = hash)) as [<-|Hh].
    + rewrite lookup_insert_eq. cbn. apply list_elem_of_filter. done.
    + by rewrite lookup_insert_ne.
  - intros j t. store_simpl. intros Hj. apply lookup_delete_Some in Hj as [Hne Hj].
    destruct (Hruns j t Hj) as (Hid & t' & Ht' & Hrest). split; [done|].
    exists t'. by rewrite lookup_delete_ne.
Qed.

Ltac update_side Hid Hs :=
  first
    [ done
    | by (store_simpl; cbn; rewrite ?Hid)
    | by (cbn; intros; congruence)
    | by (cbn; intros; destruct Hs; congruence)
    | by (intros _; store_simpl; cbn; rewrite ?Hid; eexists) ].

Lemma deleteTask_inv st i hash : store_inv st -> store_inv (deleteTask st i hash).1.
Proof.
  intros Hinv. unfold deleteTask. destruct (loadTask st i); [|done].
  destruct (negb _); [done|]. by apply purgeTask_inv.
Qed.

Lemma pauseTask_inv st i hash : store_inv st -> store_inv (pauseTask st i hash).1.
Proof.
  intros Hinv. unfold pauseTask. destruct (loadTask st i) as [t0|] eqn:Ht0; [|done].
  destruct (negb (String.eqb _ _)); [done|].
  destruct (bool_decide_reflect (status_of t0 = downloading)) as [Hs|]; cbn [negb]; [|done].
  pose proof Hinv as (_ & _ & Hidx & _). destruct (Hidx i t0 Ht0) as [Hid _].
  cbn [fst]. eapply (update_inv st _ i t0 (set_status t0 paused)); [update_side Hid Hs..|].
  intros j t. store_simpl. intros Hj. apply lookup_delete_Some in Hj as [? ?]. by right.
Qed.

Lemma startDownload_begin_inv st i t0 :
  store_inv st -> tasks st !! i = Some t0 -> status_of t0 = paused \/ status_of t0 = pending ->
  store_inv (startDownload_begin st t0).1.
Proof.
  intros Hinv Ht0 Hs.
  pose proof Hinv as (_ & _ & Hidx & _). destruct (Hidx i t0 Ht0) as [Hid _].
  unfold startDownload_begin. cbn [fst].
  eapply (update_inv st _ i t0); [update_side Hid Hs..|].
  intros j t. store_simpl. rewrite Hid. intros Hj.
  apply lookup_insert_Some in Hj as [[<- <-]|[? ?]]; [left|by right].
  cbn. split_and!; auto.
Qed.

Lemma resumeTask_inv st i hash : store_inv st -> store_inv (resumeTask st i hash).1.
Proof.
  intros Hinv. unfold resumeTask. destruct (loadTask st i) as [t0|] eqn:Ht0; [|done].
  destruct (negb (String.eqb _ _)); [done|].
  destruct (bool_decide_reflect (status_of t0 = paused)) as [Hs|]; cbn [negb]; [|done].
  cbn [fst]. apply (startDownload_begin_inv st i t0); auto.
Qed.

(** A run and the record it belongs to. *)
Lemma run_record st i t :
  store_inv st -> runs st !! i = Some t ->
  id t = i /\ exists t0, tasks st !! i = Some t0
    /\ (status_of t0 = downloading \/ status_of t0 = injecting)
    /\ status_of t = status_of t0
    /\ accountHash t = accountHash t0 /\ software t = software t0.
Proof. intros (_ & _ & _ & Hruns). apply Hruns. Qed.

Lemma on_progress_inv st i speed' progress' :
  store_inv st -> store_inv (on_progress st i speed' progress').
Proof.
  intros Hinv. unfold on_progress. destruct (runs st !! i) as [t|] eqn:Hrun; [|done].
  destruct (run_record st i t Hinv Hrun) as (Hid & t0 & Ht0 & Hs & Hst & Hh & Hsw).
  eapply (update_inv st _ i t0); [update_side Hid Hs..|].
  intros j t1. store_simpl. intros Hj.
  apply lookup_insert_Some in Hj as [[<- <-]|[? ?]]; [left|by right].
  cbn. split_and!; auto. destruct Hs; [left|right]; congruence.
Qed.

Lemma on_injecting_inv st i : store_inv st -> store_inv (on_injecting st i).
Proof.
  intros Hinv. unfold on_injecting. destruct (runs st !! i) as [t|] eqn:Hrun; [|done].
  destruct (needs_injection t); [|done].
  destruct (run_record st i t Hinv Hrun) as (Hid & t0 & Ht0 & Hs & Hst & Hh & Hsw).
  eapply (update_inv st _ i t0); [update_side Hid Hs..|].
  intros j t1. store_simpl. intros Hj.
  apply lookup_insert_Some in Hj as [[<- <-]|[? ?]]; [left|by right].
  cbn. split_and!; auto.
Qed.

Lemma on_complete_inv st i : store_inv st -> store_inv (on_complete st i).
Proof.
  intros Hinv. unfold on_complete. destruct (runs st !! i) as [t|] eqn:Hrun; [|done].
  destruct (run_record st i t Hinv Hrun) as (Hid & t0 & Ht0 & Hs & Hst & Hh & Hsw).
  eapply (update_inv st _ i t0); [update_side Hid Hs..|].
  intros j t1. store_simpl. rewrite Hid. intros Hj.
  apply lookup_delete_Some in Hj as [? ?]. by right.
Qed.

Lemma on_fail_inv st i message : store_inv st -> store_inv (on_fail st i message).
Proof.
  intros Hinv. unfold on_fail. destruct (runs st !! i) as [t|] eqn:Hrun; [|done].
  destruct (run_record st i t Hinv Hrun) as (Hid & t0 & Ht0 & Hs & Hst & Hh & Hsw).
  eapply (update_inv st _ i t0); [update_side Hid Hs..|].
  intros j t1. store_simpl. rewrite Hid. intros Hj.
  apply lookup_delete_Some in Hj as [? ?]. by right.
Qed.

(** ** Creating a task *)

Lemma find_duplicate_None st params i t :
  find_duplicate st params = None ->
  i ∈ default [] (accounts st !! p_accountHash params) ->
  tasks st !! i = Some t ->
  same_download params t = false.
Proof.
  unfold find_duplicate. intros Hf Hin Ht.
  destruct (list_find _ _) as [[k x]|] eqn:E; [done|].
  apply list_find_None in E.
  assert (Hx : t ∈ omap (loadTask st) (default [] (accounts st !! p_accountHash params))).
  { apply list_elem_of_omap. by exists i. }
  rewrite Forall_forall in E. specialize (E t Hx).
  by destruct (same_download params t).
Qed.

Lemma find_duplicate_Some st params i t :
  i ∈ default [] (accounts st !! p_accountHash params) ->
  tasks st !! i = Some t ->
  same_download params t = true ->
  exists d, find_duplicate st params = Some d /\ same_download params d = true.
Proof.
  unfold find_duplicate. intros Hin Ht Hs.
  destruct (list_find _ _) as [[k x]|] eqn:E.
  - apply list_find_Some in E as (_ & Hx & _). by exists x.
  - exfalso. apply list_find_None in E. rewrite Forall_forall in E.
    apply (E t); [|done]. apply list_elem_of_omap. by exists i.
Qed.

Lemma same_download_live params t :
  same_download params t = true <->
  live_duplicate (accountHash t) (bundleID (p_software params)) (version (p_software params)) t.
Proof.
  unfold same_download, live_duplicate.
  rewrite !andb_true_iff, !String.eqb_eq, negb_true_iff, bool_decide_eq_false. naive_solver.
Qed.

Lemma insert_new_inv st params uuid now :
  store_inv st -> tasks st !! uuid = None -> find_duplicate st params = None ->
  store_inv (addToAccountIndex (saveTask st (new_task params uuid now))
                               (p_accountHash params) uuid).
Proof.
  intros (Hkey & Hdedup & Hidx & Hruns) Hfresh Hnodup.
  set (task := new_task params uuid now).
  set (st1 := addToAccountIndex (saveTask st task) (p_accountHash params) uuid).
  assert (Htasks : tasks st1 = <[uuid := task]> (tasks st)).
  { unfold st1, addToAccountIndex. by destruct (bool_decide _). }
  assert (Hkeys : r2keys st1 = r2keys st).
  { unfold st1, addToAccountIndex. by destruct (bool_decide _). }
  assert (Hrunseq : runs st1 = runs st).
  { unfold st1, addToAccountIndex. by destruct (bool_decide _). }
  assert (Hacc : forall h i, i ∈ default [] (accounts st !! h) ->
                   i ∈ default [] (accounts st1 !! h)).
  { intros h i Hin. unfold st1, addToAccountIndex. store_simpl.
    destruct (bool_decide _); [done|]. store_simpl.
    destruct (decide (h = p_accountHash params)) as [->|Hne].
    - rewrite lookup_insert_eq. cbn. apply elem_of_app. by left.
    - by rewrite lookup_insert_ne. }
  assert (Hnew : uuid ∈ default [] (accounts st1 !! p_accountHash params)).
  { unfold st1, addToAccountIndex. store_simpl.
    destruct (bool_decide_reflect
                (uuid ∈ default [] (accounts st !! p_accountHash params))); [done|].
    store_simpl. rewrite lookup_insert_eq. cbn. apply elem_of_app. right.
    by apply list_elem_of_singleton. }
  split_and!.
  - intros j. rewrite Htasks, Hkeys. destruct (decide (j = uuid)) as [->|Hne].
    + rewrite lookup_insert_eq. split.
      * intros Hk. apply Hkey in Hk as (t & Ht & _). congruence.
      * by intros (t & [= <-] & ?).
    + rewrite lookup_insert_ne by done. apply Hkey.
  - assert (Hclash : forall h b v i t, tasks st !! i = Some t ->
              live_duplicate h b v task -> live_duplicate h b v t -> False).
    { intros h b v i t Ht (<- & <- & <- & _) Hl.
      destruct (Hidx i t Ht) as [_ Hin]. destruct Hl as (Hh & Hb & Hv & Hs).
      rewrite Hh in Hin. cbn in Hin.
      pose proof (find_duplicate_None st params i t Hnodup Hin Ht) as Hsd.
      assert (same_download params t = true); [|congruence].
      apply same_download_live. unfold live_duplicate. by rewrite Hb, Hv. }
    intros h b v i1 i2 t1 t2. rewrite Htasks.
    destruct (decide (i1 = uuid)) as [->|H1], (decide (i2 = uuid)) as [->|H2]; [done|..].
    + rewrite lookup_insert_eq, lookup_insert_ne by done. intros [= <-] Ht2 Hl1 Hl2.
      destruct (Hclash h b v i2 t2 Ht2 Hl1 Hl2).
    + rewrite lookup_insert_ne, lookup_insert_eq by done. intros Ht1 [= <-] Hl1 Hl2.
      destruct (Hclash h b v i1 t1 Ht1 Hl2 Hl1).
    + rewrite !lookup_insert_ne by done. apply Hdedup.
  - intros j t. rewrite Htasks. destruct (decide (j = uuid)) as [->|Hne].
    + rewrite lookup_insert_eq. intros [= <-]. done.
    + rewrite lookup_insert_ne by done. intros Ht.
      destruct (Hidx j t Ht). split; [done|]. by apply Hacc.
  - intros j t. rewrite Hrunseq, Htasks. intros Hj.
    destruct (Hruns j t Hj) as (Hid & t' & Ht' & Hrest). split; [done|].
    exists t'. rewrite lookup_insert_ne; [done|]. congruence.
Qed.

Section WithUrl.
Variable parse_url : string -> option (string * string).

Abbreviation createTask := (Store.createTask parse_url).

(** What a successful [createTask] did. *)
Lemma createTask_ok st params uuid now st' out :
  createTask st params uuid now = Ok (st', out) ->
  find_duplicate st params = None
  /\ st' = (startDownload_begin
              (addToAccountIndex (saveTask st (new_task params uuid now))
                                 (p_accountHash params) uuid)
              (new_task params uuid now)).1.
Proof.
  unfold Store.createTask.
  destruct (validateDownloadURL parse_url _); [|done]. cbn [mbind result_mbind result_bind].
  destruct (_ <? MIN_ACCOUNT_HASH_LENGTH); [done|].
  destruct (find_duplicate st params); [done|].
  cbn. intros [= <- _]. done.
Qed.

Lemma createTask_inv st params uuid now st' out :
  store_inv st -> tasks st !! uuid = None ->
  createTask st params uuid now = Ok (st', out) ->
  store_inv st'.
Proof.
  intros Hinv Hfresh Hc. apply createTask_ok in Hc as [Hnodup ->].
  apply (startDownload_begin_inv _ uuid).
  - by apply insert_new_inv.
  - unfold addToAccountIndex. destruct (bool_decide _); store_simpl; apply lookup_insert_eq.
  - by right.
Qed.

(** ** The janitor keeps the invariants *)

Lemma purge_entry_inv j e :
  store_inv (j_store j) -> store_inv (purge_entry j e).1.1.
Proof. intros H. unfold purge_entry. cbn. by apply purgeTask_inv. Qed.

Lemma age_step_inv cutoff j e :
  store_inv (j_store j) -> store_inv (j_store (age_step cutoff j e)).
Proof.
  intros H. unfold age_step. destruct (_ <? cutoff); [|done].
  pose proof (purge_entry_inv j e H) as Hp.
  destruct (purge_entry j e) as [[st sizes] total]. done.
Qed.

Lemma phase1_inv days now j :
  store_inv (j_store j) -> store_inv (j_store (phase1 days now j)).
Proof.
  intros H. unfold phase1. destruct (days >? 0); [|done].
  generalize (allTasks j) at 1. intros l. revert j H.
  induction l as [|e l IH]; intros j H; [done|]. cbn [fold_left].
  apply IH. by apply age_step_inv.
Qed.

Lemma quota_loop_inv maxBytes entries j :
  store_inv (j_store j) -> store_inv (j_store (quota_loop maxBytes entries j)).
Proof.
  revert j. induction entries as [|e entries IH]; intros j H; [done|].
  cbn [quota_loop]. destruct (_ <=? maxBytes); [done|].
  pose proof (purge_entry_inv j e H) as Hp.
  destruct (purge_entry j e) as [[st sizes] total]. by apply IH.
Qed.

Lemma phase2_inv maxMB j :
  store_inv (j_store j) -> store_inv (j_store (phase2 maxMB j)).
Proof.
  intros H. unfold phase2. destruct (maxMB >? 0); [|done].
  destruct (_ >? _); [|done]. by apply quota_loop_inv.
Qed.

Lemma cleanupExpired_inv st days maxMB now :
  store_inv st -> store_inv (cleanupExpired st days maxMB now).1.
Proof.
  intros H. unfold cleanupExpired, phase3. cbn [fst].
  eapply store_inv_same; [done..|]. by apply phase2_inv, phase1_inv.
Qed.

Lemma empty_store_inv : store_inv empty_store.
Proof.
  split_and!.
  - intros i. cbn. rewrite !lookup_empty. split; [by intros []|]. by intros (? & ? & ?).
  - intros h b v i1 i2 t1 t2. cbn. by rewrite lookup_empty.
  - intros i t. cbn. by rewrite lookup_empty.
  - intros i t. cbn. by rewrite lookup_empty.
Qed.

Lemma step_inv st st' : step parse_url st st' -> store_inv st -> store_inv st'.
Proof.
  intros Hstep Hinv. destruct Hstep.
  - by eapply createTask_inv.
  - by apply deleteTask_inv.
  - by apply pauseTask_inv.
  - by apply resumeTask_inv.
  - by apply on_progress_inv.
  - by apply on_injecting_inv.
  - by apply on_complete_inv.
  - by apply on_fail_inv.
  - by eapply store_inv_same.
  - by eapply store_inv_same.
  - by apply cleanupExpired_inv.
Qed.

Lemma reachable_inv st : reachable parse_url st -> store_inv st.
Proof.
  induction 1 as [|st st' _ IH Hstep]; [apply empty_store_inv|]. by eapply step_inv.
Qed.

End WithUrl.

Section Claims.
Variable parse_url : string -> option (string * string).



End Claims.

Lemma created_store_reachable : reachable sample_url created_store.
Proof.
  eapply reachable_step; [apply reachable_empty|].
  eapply (step_create sample_url empty_store sample_params "id1" 1000 created_store created_out).
  - reflexivity.
  - vm_compute. reflexivity.
Defined.

Lemma completed_store_reachable : reachable sample_url completed_store.
Proof.
  eapply reachable_step; [|apply step_complete].
  eapply reachable_step; [|apply step_injecting].
  apply created_store_reachable.
Defined.



(** ** The janitor *)

Lemma phase1_skipped days now j : days <= 0 -> phase1 days now j = j.
Proof. intros H. unfold phase1. destruct (Z.gtb_spec days 0); [lia|done]. Qed.

Lemma phase2_skipped maxMB j : maxMB <= 0 -> phase2 maxMB j = j.
Proof. intros H. unfold phase2. destruct (Z.gtb_spec maxMB 0); [lia|done]. Qed.

Lemma phase2_under_cap maxMB j :
  totalSize j <= maxMB * 1024 * 1024 -> phase2 maxMB j = j.
Proof.
  intros H. unfold phase2. destruct (maxMB >? 0); [|done].
  destruct (Z.gtb_spec (totalSize j) (maxMB * 1024 * 1024)); [lia|done].
Qed.

(** The ghost logs of the age phase. *)
Lemma age_fold_log cutoff entries j :
  let j' := fold_left (age_step cutoff) entries j in
  purgedByAge j' = purgedByAge j ++ filter (fun e => by_createdAt e < cutoff) entries
  /\ purgedBySize j' = purgedBySize j
  /\ deletedBySize j' = deletedBySize j
  /\ deletedByAge j' = deletedByAge j
                       + len (filter (fun e => by_createdAt e < cutoff) entries).
Proof.
  cbn zeta. revert j. induction entries as [|e entries IH]; intros j.
  - cbn. rewrite app_nil_r. change (len []) with 0. split_and!; (done || lia).
  - cbn [fold_left]. destruct (IH (age_step cutoff j e)) as (H1 & H2 & H3 & H4).
    rewrite H1, H2, H3, H4. unfold age_step, by_createdAt. rewrite filter_cons.
    destruct (Z.ltb_spec (createdAt (e_task e)) cutoff).
    + rewrite decide_True by done.
      destruct (purge_entry j e) as [[st sizes] total]. cbn.
      rewrite <- app_assoc, len_cons. split_and!; (done || lia).
    + rewrite decide_False by lia. split_and!; done.
Qed.

Lemma phase1_log days now j :
  0 < days ->
  purgedByAge (phase1 days now j)
    = purgedByAge j
      ++ filter (fun e => by_createdAt e < now - days * 24 * 60 * 60 * 1000) (allTasks j)
  /\ purgedBySize (phase1 days now j) = purgedBySize j.
Proof.
  intros H. unfold phase1. destruct (Z.gtb_spec days 0); [|lia].
  destruct (age_fold_log (now - days * 24 * 60 * 60 * 1000) (allTasks j) j) as (H1 & H2 & _).
  done.
Qed.

Lemma phase1_purgedBySize days now j : purgedBySize (phase1 days now j) = purgedBySize j.
Proof.
  destruct (Z.le_gt_cases days 0).
  - by rewrite phase1_skipped.
  - by apply phase1_log.
Qed.

(** The quota loop purges a prefix of its list, each entry while the total
    is above the cap, and stops at the first total at or below it. *)
Lemma quota_loop_spec maxBytes entries j :
  let j' := quota_loop maxBytes entries j in
  exists purged kept,
    entries = map fst purged ++ kept
    /\ purgedBySize j' = purgedBySize j ++ purged
    /\ Forall (fun p => maxBytes < p.2) purged
    /\ (kept = [] \/ totalSize j' <= maxBytes)
    /\ deletedBySize j' = deletedBySize j + len purged
    /\ deletedByAge j' = deletedByAge j.
Proof.
  cbn zeta. revert j. induction entries as [|e entries IH]; intros j.
  - exists [], []. cbn. rewrite app_nil_r. change (len []) with 0.
    split_and!; try done; [by left|lia].
  - cbn [quota_loop]. destruct (Z.leb_spec (totalSize j) maxBytes).
    + exists [], (e :: entries). cbn. rewrite app_nil_r. change (len []) with 0.
      split_and!; try done; [by right|lia].
    + destruct (purge_entry j e) as [[st sizes] total].
      match goal with |- context [quota_loop _ _ ?j1] => destruct (IH j1)
        as (purged & kept & He & Hp & Hf & Hk & Hd & Ha) end.
      cbn in Hp, Hd, Ha.
      exists ((e, totalSize j) :: purged), kept. cbn [map fst].
      rewrite Hp, Hd, Ha, <- app_assoc, len_cons.
      split_and!; try done; [by rewrite He|constructor; [cbn; lia|done]|lia].
Qed.

Lemma purge_entry_listed j e :
  listed j ->
  forall k, is_Some (bucket (purge_entry j e).1.1 !! k) -> is_Some ((purge_entry j e).1.2 !! k).
Proof.
  intros Hl k. unfold purge_entry, purgeTask, deleteR2Files, keys_to_delete. cbn.
  intros [v Hk]. apply map_lookup_filter_Some in Hk as [Hk Hnot]. cbn in Hnot.
  destruct (truthy (e_r2key e)) as [r|] eqn:Hr.
  - rewrite lookup_delete_ne; [apply Hl; by exists v|].
    intros <-. apply Hnot. set_solver.
  - apply Hl. by exists v.
Qed.

Lemma age_step_listed cutoff j e : listed j -> listed (age_step cutoff j e).
Proof.
  intros Hl. unfold age_step. destruct (_ <? cutoff); [|done].
  pose proof (purge_entry_listed j e Hl) as Hp.
  destruct (purge_entry j e) as [[st sizes] total]. exact Hp.
Qed.

Lemma phase1_listed days now j : listed j -> listed (phase1 days now j).
Proof.
  intros H. unfold phase1. destruct (days >? 0); [|done].
  generalize (allTasks j) at 1. intros l. revert j H.
  induction l as [|e l IH]; intros j H; [done|]. cbn [fold_left].
  apply IH. by apply age_step_listed.
Qed.

Lemma quota_loop_listed maxBytes entries j :
  listed j -> listed (quota_loop maxBytes entries j).
Proof.
  revert j. induction entries as [|e entries IH]; intros j H; [done|].
  cbn [quota_loop]. destruct (_ <=? maxBytes); [done|].
  pose proof (purge_entry_listed j e H) as Hp.
  destruct (purge_entry j e) as [[st sizes] total]. apply IH. exact Hp.
Qed.

Lemma phase2_listed maxMB j : listed j -> listed (phase2 maxMB j).
Proof.
  intros H. unfold phase2. destruct (maxMB >? 0); [|done].
  destruct (_ >? _); [|done]. by apply quota_loop_listed.
Qed.

Lemma elem_of_knownR2Keys st k :
  k ∈ knownR2Keys st <-> exists i, r2keys st !! i = Some k.
Proof.
  unfold knownR2Keys. rewrite elem_of_list_to_set, list_elem_of_fmap. split.
  - intros ([i k'] & -> & Hin). apply elem_of_map_to_list in Hin. by exists i.
  - intros [i Hi]. exists (i, k). split; [done|]. by apply elem_of_map_to_list.
Qed.

(** After the orphan phase every blob that is left is named by a record. *)
Lemma phase3_no_orphans j :
  listed j ->
  forall k, is_Some (bucket (phase3 j).1 !! k) -> exists i, r2keys (phase3 j).1 !! i = Some k.
Proof.
  intros Hl k. unfold phase3. cbn. intros [v Hk].
  apply map_lookup_filter_Some in Hk as [Hk Hnot]. cbn in Hnot.
  destruct (Hl k) as [s Hs]; [by exists v|].
  apply elem_of_knownR2Keys.
  destruct (decide (k ∈ knownR2Keys (j_store j))) as [|Hnk]; [done|]. exfalso.
  assert (orphans j !! k = Some s); [|congruence].
  apply map_lookup_filter_Some. done.
Qed.

Lemma collect_listed st : listed (collect st).
Proof. intros k H. exact H. Qed.




Example janitor_quota_run :
  let out := cleanupExpired ten_tasks 0 55 5000 in
  map (fun p => e_id p.1) (purgedBySize (phase2 55 (phase1 0 5000 (collect ten_tasks))))
    = ["t9"; "t8"; "t7"; "t6"; "t5"]%string
  /\ r_deletedBySize out.2 = 5 /\ r_deletedOrphaned out.2 = 1
  /\ r_totalSize out.2 = 50 * 1024 * 1024
  /\ bucket out.1 !! "stray"%string = None.
Proof. vm_compute. done. Qed.

End StoreFacts.
(** * Facts about the SINF injection *)

Module InjectFacts.
Import Zip Store Inject.

Section WithPlatform.

Variable decode : bytes -> string.
Variable encode : string -> bytes.
Variable inflate : bytes -> option bytes.
Variable base64 : string -> bytes.
Variable bplist_parse : bytes -> option (list plist_value).
Variable plist_parse : string -> option plist_value.
Variable js_string : plist_value -> string.
Variable bplist_of_xml : bytes -> option bytes.
Variable upload_ok : Z -> bool.

Lemma injectSinf_nothing w task r2key p :
  prepare decode inflate base64 bplist_parse plist_parse js_string bplist_of_xml
    w task r2key = Ok p ->
  filesToAppend p = [] ->
  injectSinf decode encode inflate base64 bplist_parse plist_parse js_string
    bplist_of_xml upload_ok w task r2key = (Ok (), w).
Proof. intros Hp Hf. unfold injectSinf. by rewrite Hp, Hf. Qed.

(** Whatever stops [injectSinf] before it has its list of files leaves the
    store as it was. *)
Lemma injectSinf_unprepared w task r2key e :
  prepare decode inflate base64 bplist_parse plist_parse js_string bplist_of_xml
    w task r2key = Err e ->
  injectSinf decode encode inflate base64 bplist_parse plist_parse js_string
    bplist_of_xml upload_ok w task r2key = (Err e, w).
Proof. intros Hp. unfold injectSinf. by rewrite Hp. Qed.

(** C10.  With no files to append, [appendToZipTail] returns the archive
    size as the split offset and an empty tail, so that the rewritten
    archive is the original one; [appendToZip], given the reader of the
    archive's prefix, returns the octets of the archive; and [injectSinf],
    once it has found that its list of files is empty, returns normally
    and leaves the objects of the bucket and the list of writes as they
    were. *)
Theorem append_nothing_is_identity :
  (forall archiveSize readRange precomputed,
      appendToZipTail decode encode archiveSize readRange [] precomputed
        = Ok (archiveSize, []))
  /\ (forall A readRange precomputed,
        exists split tail,
          appendToZipTail decode encode (len A) readRange [] precomputed = Ok (split, tail)
          /\ rewritten A split tail = A)
  /\ (forall A readRange,
        appendToZip decode encode (len A) readRange [] (read_prefix A) = Ok A)
  /\ (forall w task r2key p,
        prepare decode inflate base64 bplist_parse plist_parse js_string bplist_of_xml
          w task r2key = Ok p ->
        filesToAppend p = [] ->
        injectSinf decode encode inflate base64 bplist_parse plist_parse js_string
          bplist_of_xml upload_ok w task r2key = (Ok (), w)).
Proof.
  split_and!.
  - intros. apply ZipFacts.appendToZipTail_nil.
  - intros A readRange precomputed. exists (len A), [].
    split; [apply ZipFacts.appendToZipTail_nil | apply ZipFacts.rewritten_nil].
  - intros A readRange. rewrite ZipFacts.appendToZip_nil.
    unfold read_prefix. by rewrite ZipFacts.subarray_full.
  - apply injectSinf_nothing.
Qed.

End WithPlatform.

(** The manifest of the sample archive lists no path: nothing is written.
    With one path, the archive is replaced by one with the new file. *)
Lemma append_nothing_is_identity_witness :
  exists p,
    toy_prepare (sample_world "0") sample_task "k" = Ok p
    /\ filesToAppend p = []
    /\ toy_injectSinf (sample_world "0") sample_task "k" = (Ok (), sample_world "0").
Proof.
  destruct (toy_prepare (sample_world "0") sample_task "k") as [p|e] eqn:Hp;
    [|vm_compute in Hp; discriminate Hp].
  assert (Hf : filesToAppend p = []).
  { vm_compute in Hp. injection Hp as <-. reflexivity. }
  exists p. split_and!; [reflexivity | exact Hf |].
  exact (proj2 (proj2 (proj2
           (append_nothing_is_identity ascii_decode ascii_encode toy_inflate ascii_encode
              toy_bplist_parse toy_plist_parse toy_js_string toy_bplist_of_xml
              toy_upload_ok))) (sample_world "0") sample_task "k" p Hp Hf).
Defined.

Example injectSinf_appends :
  let out := toy_injectSinf (sample_world "1") sample_task "k" in
  out.1 = Ok ()
  /\ length (writes out.2) = 5%nat
  /\ (exists A eocd entries,
        objects out.2 = {[ "k"%string := A ]}
        /\ locate ascii_decode (len A) (read_archive A) = Ok (eocd, entries)
        /\ map Zip.name entries
           = ["Payload/X.app/SC_Info/Manifest.plist"; "Payload/X.app/SC_Info/X.sinf"]%string).
Proof.
  cbn zeta. destruct (toy_injectSinf (sample_world "1") sample_task "k") as [r w] eqn:H.
  vm_compute in H. injection H as <- <-. split_and!; [reflexivity..|].
  eexists _, _, _. split_and!; [reflexivity | vm_compute; reflexivity | reflexivity].
Qed.

End InjectFacts.
